(** * Abnormal Vault: presentation layer and deduplicating storage engine

    The development has two parts.

    - [SearchFilter] and [StorageStats] embed the two React components of
      [frontend/src/components]: the filter bar that assembles the query
      record, and the statistics widget with its [StorageStatistics]
      interface.
    - [Engine] models the content-addressed, reference-counted storage
      engine behind them (Blob Store, File Index, Statistics Aggregator,
      Reclaimer), whose code is not part of the sources at hand. *)

From Stdlib Require Import ZArith String List Ascii Lia.
From stdpp Require Import gmap strings pretty list fin_maps.

Local Open Scope string_scope.

(** ** JavaScript objects with string values

    A plain JS object enumerates its string keys in insertion order, and
    assigning to an existing key keeps the key's position.  The filter
    state is such an object, so it is kept as an ordered list of
    entries.  This is how an object behaves for keys that are neither
    integer-like (those are enumerated first) nor [__proto__] (assigning
    to it adds no own property); the six field names of the filter bar
    are of this kind, and the properties below are stated for them. *)

Module Js.

Definition Obj := list (string * string).

Fixpoint get (k : string) (o : Obj) : option string :=
  match o with
  | [] => None
  | (k', v) :: o' => if decide (k' = k) then Some v else get k o'
  end.

(** [{ ...o, [k]: v }] *)
Fixpoint set (k v : string) (o : Obj) : Obj :=
  match o with
  | [] => [(k, v)]
  | (k', v') :: o' =>
      if decide (k' = k) then (k, v) :: o' else (k', v') :: set k v o'
  end.

Definition keys (o : Obj) : list string := o.*1.
Definition values (o : Obj) : list string := o.*2.

(** [Object.entries(o)] *)
Definition entries (o : Obj) : list (string * string) := o.

(** Truthiness of a string: every string but the empty one. *)
Definition truthy (v : string) : bool :=
  match v with
  | EmptyString => false
  | String _ _ => true
  end.

End Js.

(** ** The search and filter bar ([SearchFilter.tsx]) *)

Module SearchFilter.

(** [interface FilterValues], in declaration order. *)
Definition field_names : list string :=
  ["search"; "fileType"; "sizeMin"; "sizeMax"; "uploadedFrom"; "uploadedTo"].

(** The argument of [useState<FilterValues>] and of [setFilterValues] in
    [clearFilters]. *)
Definition empty_values : Js.Obj :=
  [("search", ""); ("fileType", ""); ("sizeMin", ""); ("sizeMax", "");
   ("uploadedFrom", ""); ("uploadedTo", "")].

(** Component state: the two [useState] cells. *)
Record State := mkState {
  isExpanded : bool;
  filterValues : Js.Obj
}.

Definition initial : State :=
  {| isExpanded := false; filterValues := empty_values |}.

(** What a handler does to the outside: the records it passes to the
    [onFilterChange] prop, in call order. *)
Definition Calls := list (gmap string string).

(** [setFilterValues(prev => ({ ...prev, [name]: value }))] *)
Definition handleInputChange (name value : string) (st : State) : State * Calls :=
  ({| isExpanded := isExpanded st;
      filterValues := Js.set name value (filterValues st) |}, []).

(** The reducer of [applyFilters]: [if (value) acc[key] = value; return acc]. *)
Definition collect (acc : gmap string string) (kv : string * string)
  : gmap string string :=
  if Js.truthy kv.2 then <[kv.1 := kv.2]> acc else acc.

Definition filters_of (fv : Js.Obj) : gmap string string :=
  fold_left collect (Js.entries fv) ∅.

Definition applyFilters (st : State) : State * Calls :=
  (st, [filters_of (filterValues st)]).

Definition clearFilters (st : State) : State * Calls :=
  ({| isExpanded := isExpanded st; filterValues := empty_values |}, [∅]).

(** [onClick={() => setIsExpanded(!isExpanded)}] *)
Definition toggleExpanded (st : State) : State * Calls :=
  ({| isExpanded := negb (isExpanded st); filterValues := filterValues st |}, []).

(** The clear button is rendered only when some value is not empty. *)
Definition clear_visible (st : State) : bool :=
  existsb (λ v, negb (String.eqb v "")) (Js.values (filterValues st)).

(** User events: a change of an input or select, the apply button or the
    enter key in the search box, the clear button, the filter toggle. *)
Inductive Event :=
  | Input (name value : string)
  | Apply
  | Clear
  | Toggle.

Definition handle (e : Event) (st : State) : State * Calls :=
  match e with
  | Input name value => handleInputChange name value st
  | Apply => applyFilters st
  | Clear => clearFilters st
  | Toggle => toggleExpanded st
  end.

(** The events the rendered component can raise in a state: every input
    and select carries one of the six field names as its [name]
    attribute, and the clear button exists only while [clear_visible]. *)
Definition rendered (st : State) (e : Event) : Prop :=
  match e with
  | Input name _ => name ∈ field_names
  | Clear => clear_visible st = true
  | Apply | Toggle => True
  end.

Inductive reachable : State → Prop :=
  | reach_initial : reachable initial
  | reach_step st e :
      reachable st → rendered st e → reachable (handle e st).1.

Definition sample_state : State :=
  (handle (Input "fileType" "image/")
     (handle (Input "search" "report") initial).1).1.

End SearchFilter.

(** ** The statistics widget ([StorageStats.tsx]) *)

Module StorageStats.

Inductive JsType := TNumber | TString.

(** The values a statistics object holds.  The numeric fields are counts
    of files and of bytes, so a number is kept as an integer. *)
Inductive JsVal :=
  | VNumber (n : Z)
  | VString (s : string).

Definition type_of (v : JsVal) : JsType :=
  match v with
  | VNumber _ => TNumber
  | VString _ => TString
  end.

(** [interface StorageStatistics], field by field. *)
Definition StorageStatistics_fields : list (string * JsType) :=
  [("total_files", TNumber); ("unique_files", TNumber);
   ("duplicate_files", TNumber); ("total_size", TNumber);
   ("actual_size", TNumber); ("storage_saved", TNumber);
   ("last_updated", TString)].

Record StorageStatistics := mkStats {
  total_files : Z;
  unique_files : Z;
  duplicate_files : Z;
  total_size : Z;
  actual_size : Z;
  storage_saved : Z;
  last_updated : string
}.

(** The object [fileService.getStorageStatistics] resolves to, for a value
    of the interface. *)
Definition to_object (s : StorageStatistics) : gmap string JsVal :=
  <["total_files" := VNumber (total_files s)]>
  (<["unique_files" := VNumber (unique_files s)]>
  (<["duplicate_files" := VNumber (duplicate_files s)]>
  (<["total_size" := VNumber (total_size s)]>
  (<["actual_size" := VNumber (actual_size s)]>
  (<["storage_saved" := VNumber (storage_saved s)]>
  (<["last_updated" := VString (last_updated s)]> ∅)))))).

(** An object inhabits the interface when every declared field is there
    with the declared type. *)
Definition conforms (o : gmap string JsVal) : Prop :=
  ∀ k t, (k, t) ∈ StorageStatistics_fields →
         ∃ v, o !! k = Some v ∧ type_of v = t.

(** The six counters of the data model. *)
Definition data_model_fields : list string :=
  ["total_files"; "unique_files"; "duplicate_files";
   "total_size"; "actual_size"; "storage_saved"].

(** The fields the JSX reads from [stats]. *)
Definition rendered_fields : list string :=
  ["total_files"; "unique_files"; "total_size"; "storage_saved"; "last_updated"].

Definition example_stats : StorageStatistics :=
  {| total_files := 2; unique_files := 1; duplicate_files := 1;
     total_size := 10; actual_size := 5; storage_saved := 5;
     last_updated := "2025-01-01T00:00:00Z" |}.

(** *** [formatBytes]

    The unit index [Math.floor(Math.log(bytes) / Math.log(k))] is computed
    on doubles, with the logarithm the JavaScript runtime provides; it is
    a parameter here.  The rest of the function is exact for a whole byte
    count below [2^53]: the division by a power of two, [toFixed(2)]
    (nearest hundredth, ties upwards), and [parseFloat] followed by the
    conversion to a string, which drops trailing zeros of the fraction. *)

Section FormatBytes.

Variable log_index : Z → Z.

Definition k : Z := 1024.

Definition sizes : list string := ["Bytes"; "KB"; "MB"; "GB"; "TB"].

(** [sizes[i]], converted to a string by [+]. *)
Definition unit_name (i : Z) : string :=
  if (i <? 0)%Z then "undefined"
  else default "undefined" (sizes !! Z.to_nat i).

(** [(num / den).toFixed(2)], as a number of hundredths. *)
Definition toFixed2 (num den : Z) : Z :=
  ((200 * num + den) / (2 * den))%Z.

(** [parseFloat] of the two-decimal string, printed back. *)
Definition show_hundredths (h : Z) : string :=
  let q := (h / 100)%Z in
  let r := (h mod 100)%Z in
  if (r =? 0)%Z then pretty q
  else if (r mod 10 =? 0)%Z then pretty q ++ "." ++ pretty (r / 10)%Z
  else if (r <? 10)%Z then pretty q ++ ".0" ++ pretty r
  else pretty q ++ "." ++ pretty r.

Definition formatBytes (bytes : Z) : string :=
  if (bytes =? 0)%Z then "0 Bytes"
  else
    let i := log_index bytes in
    show_hundredths (toFixed2 bytes (k ^ i)) ++ " " ++ unit_name i.

End FormatBytes.

(** The index an exact logarithm would give. *)
Definition exact_index (bytes : Z) : Z := (Z.log2 bytes / 10)%Z.

End StorageStats.

(** ** Sums and counts over finite maps *)

Section MapSums.

Context {K : Type} `{Countable K} {V : Type}.

Local Open Scope Z_scope.

(** [Σ g v] over the values of a map. *)
Definition msum (g : V → Z) (m : gmap K V) : Z :=
  map_fold (λ _ v acc, g v + acc) 0 m.

Definition indicator (P : V → Prop) `{∀ v, Decision (P v)} (v : V) : Z :=
  if decide (P v) then 1 else 0.

(** The number of values that satisfy [P]. *)
Definition mcount (P : V → Prop) `{∀ v, Decision (P v)} (m : gmap K V) : Z :=
  msum (indicator P) m.

End MapSums.

(** ** The deduplicating storage engine

    The engine itself (Content Hasher, Blob Store, File Index, Statistics
    Aggregator, Reclaimer) is not among the sources; the two components
    above are its callers.  Its operations are modelled from the design
    document, one definition per operation named there.  The outcome of
    each access to physical storage is an input of the operation, and
    every physical write and physical deletion is recorded in a history.
    Each request is defined first as a whole transaction on the state
    below, and then as the sequence of atomic actions it takes when other
    requests run beside it. *)

Module Engine.

Local Open Scope nat_scope.

Abbreviation Fingerprint := string.
Abbreviation Content := string.
Abbreviation FileId := nat.

(** Modelled from the spec: the Blob record, keyed by its fingerprint, with
    its byte size and reference count; the storage location is the key of
    the physical store. *)
Record Blob := mkBlob {
  blob_size : nat;
  reference_count : nat
}.

(** Modelled from the spec: what [lookup] returns, size and reference
    count. *)
Record BlobMeta := mkBlobMeta {
  meta_size : nat;
  meta_reference_count : nat
}.

(** Modelled from the spec: the display metadata of an upload. *)
Record Metadata := mkMetadata {
  display_name : string;
  owner : string;
  upload_time : nat
}.

(** Modelled from the spec: the FileEntry record; its identity is its key
    in the File Index, and [fingerprint] is its non-owning reference to a
    Blob. *)
Record FileEntry := mkFileEntry {
  entry_metadata : Metadata;
  nominal_size : nat;
  fingerprint : Fingerprint
}.

(** Modelled from the spec: the StorageStatistics snapshot of the data
    model. *)
Record StorageStatistics := mkStatistics {
  total_files : Z;
  unique_files : Z;
  duplicate_files : Z;
  total_size : Z;
  actual_size : Z;
  storage_saved : Z
}.

(** Modelled from the spec: the incrementally maintained counters of the
    second aggregation strategy. *)
Record Counters := mkCounters {
  count_files : Z;
  count_unique : Z;
  sum_total : Z;
  sum_actual : Z
}.

(** Modelled from the spec: the physical writes and physical deletions of
    the Blob Store, as events of a history. *)
Inductive PhysEvent :=
  | PhysWrite (fp : Fingerprint)
  | PhysDelete (fp : Fingerprint).

#[global] Instance PhysEvent_eq_dec : EqDecision PhysEvent.
Proof. solve_decision. Defined.

(** Modelled from the spec: the state of the engine; the Blob records and
    the physical storage keyed by fingerprint, the File Index with the
    next free identity, the incremental counters, and the history of
    physical storage. *)
Record State := mkState {
  blobs : gmap Fingerprint Blob;
  physical : gmap Fingerprint Content;
  files : gmap FileId FileEntry;
  next_id : FileId;
  counters : Counters;
  history : list PhysEvent
}.

(** Modelled from the spec: the empty store, with all statistics zero. *)
Definition init : State :=
  {| blobs := ∅; physical := ∅; files := ∅; next_id := 0;
     counters := mkCounters 0 0 0 0; history := [] |}.

(** Modelled from the spec: the error taxonomy, without the internal retry
    signal that no caller sees. *)
Inductive Error := IOFailure | CapacityExceeded | NotFound.

Inductive Result (A : Type) :=
  | Ok (a : A)
  | Err (e : Error).
Arguments Ok {A} a.
Arguments Err {A} e.

(** Modelled from the spec: how physical storage answers an access; it
    succeeds, fails, or is full. *)
Inductive Disk := DiskOk | DiskError | DiskFull.

(** Modelled from the spec: an incoming byte stream, read to its end, or
    truncated or unreadable after a prefix. *)
Inductive Stream :=
  | Complete (c : Content)
  | Truncated (prefix : Content).

Definition stream_bytes (s : Stream) : Content :=
  match s with
  | Complete c => c
  | Truncated p => p
  end.

(** Modelled from the spec: the reference [put_or_link] returns; it
    carries the Blob's recorded size and its reference count after the
    call. *)
Record BlobRef := mkBlobRef {
  ref_fingerprint : Fingerprint;
  ref_size : nat;
  ref_count : nat
}.

(** Modelled from the spec: the decision [unlink] returns. *)
Inductive ReclaimDecision :=
  | Retain
  | Reclaim (fp : Fingerprint) (size : nat).

(** A Blob in use: its reference count is positive. *)
Definition live (b : Blob) : Prop := 0 < reference_count b.

#[global] Instance live_dec b : Decision (live b).
Proof. unfold live. apply _. Defined.

Definition references (fp : Fingerprint) (f : FileEntry) : Prop :=
  fingerprint f = fp.

#[global] Instance references_dec fp f : Decision (references fp f).
Proof. unfold references. apply _. Defined.

Definition set_blobs (bs : gmap Fingerprint Blob) (st : State) : State :=
  {| blobs := bs; physical := physical st; files := files st;
     next_id := next_id st; counters := counters st; history := history st |}.

Definition set_files (fs : gmap FileId FileEntry) (st : State) : State :=
  {| blobs := blobs st; physical := physical st; files := fs;
     next_id := next_id st; counters := counters st; history := history st |}.

Definition set_counters (c : Counters) (st : State) : State :=
  {| blobs := blobs st; physical := physical st; files := files st;
     next_id := next_id st; counters := c; history := history st |}.

Section WithHash.

(** The cryptographic hash of the Content Hasher. *)
Variable hash : Content → Fingerprint.

(** Modelled from the spec: the Content Hasher; a fingerprint for a stream
    read to its end, [IOFailure] for a truncated or unreadable one. *)
Definition hasher (s : Stream) : Result Fingerprint :=
  match s with
  | Complete c => Ok (hash c)
  | Truncated _ => Err IOFailure
  end.

(** Modelled from the spec: Blob Store [put_or_link]; creates the Blob with
    reference count 1 and persists the stream if no Blob exists for the
    fingerprint, otherwise discards the stream and increments the count; a
    failed write leaves the state as it was. *)
Definition put_or_link (disk : Disk) (fp : Fingerprint) (content : Content)
    (declared_size : nat) (st : State) : State * Result BlobRef :=
  match blobs st !! fp with
  | Some b =>
      let n := S (reference_count b) in
      (set_blobs (<[fp := mkBlob (blob_size b) n]> (blobs st)) st,
       Ok (mkBlobRef fp (blob_size b) n))
  | None =>
      match disk with
      | DiskOk =>
          ({| blobs := <[fp := mkBlob declared_size 1]> (blobs st);
              physical := <[fp := content]> (physical st);
              files := files st;
              next_id := next_id st;
              counters := counters st;
              history := PhysWrite fp :: history st |},
           Ok (mkBlobRef fp declared_size 1))
      | DiskError => (st, Err IOFailure)
      | DiskFull => (st, Err CapacityExceeded)
      end
  end.

(** Modelled from the spec: Blob Store [unlink]; decrements the reference
    count and reports the Blob reclaimable when the count reaches 0,
    without deleting it. *)
Definition unlink (fp : Fingerprint) (st : State) : State * Result ReclaimDecision :=
  match blobs st !! fp with
  | Some b =>
      match reference_count b with
      | O => (st, Err NotFound)
      | S n =>
          (set_blobs (<[fp := mkBlob (blob_size b) n]> (blobs st)) st,
           Ok (match n with
               | O => Reclaim fp (blob_size b)
               | S _ => Retain
               end))
      end
  | None => (st, Err NotFound)
  end.

(** Modelled from the spec: Blob Store [lookup]; read-only, size and
    reference count of a Blob that is present with a positive count. *)
Definition lookup (fp : Fingerprint) (st : State) : option BlobMeta :=
  match blobs st !! fp with
  | Some b =>
      if decide (live b)
      then Some (mkBlobMeta (blob_size b) (reference_count b))
      else None
  | None => None
  end.

(** Modelled from the spec: the Reclaimer; re-checks that the count is 0
    before it deletes the Blob physically, and deleting an absent Blob is
    no error. *)
Definition reclaim (disk : Disk) (fp : Fingerprint) (st : State) : State :=
  match blobs st !! fp with
  | Some b =>
      match reference_count b, disk with
      | O, DiskOk =>
          {| blobs := delete fp (blobs st);
             physical := delete fp (physical st);
             files := files st;
             next_id := next_id st;
             counters := counters st;
             history := PhysDelete fp :: history st |}
      | _, _ => st
      end
  | None => st
  end.

(** Modelled from the spec: File Index [create]; inserts a FileEntry that
    points at the Blob and returns its identity. *)
Definition index_create (meta : Metadata) (size : nat) (ref : BlobRef)
    (st : State) : State * FileId :=
  let id := next_id st in
  ({| blobs := blobs st; physical := physical st;
      files := <[id := mkFileEntry meta size (ref_fingerprint ref)]> (files st);
      next_id := S id;
      counters := counters st; history := history st |}, id).

(** Modelled from the spec: File Index [delete]; removes the FileEntry and
    returns it, so that the caller can unlink its fingerprint. *)
Definition index_delete (id : FileId) (st : State) : State * Result FileEntry :=
  match files st !! id with
  | Some f => (set_files (delete id (files st)) st, Ok f)
  | None => (st, Err NotFound)
  end.

(** Modelled from the spec: the counter update that goes with a [create]. *)
Definition count_upload (size : nat) (ref : BlobRef) (c : Counters) : Counters :=
  let fresh := bool_decide (ref_count ref = 1) in
  {| count_files := count_files c + 1;
     count_unique := count_unique c + (if fresh then 1 else 0);
     sum_total := sum_total c + Z.of_nat size;
     sum_actual := sum_actual c + (if fresh then Z.of_nat (ref_size ref) else 0) |}%Z.

(** Modelled from the spec: the counter update that goes with a [delete]. *)
Definition count_delete (f : FileEntry) (d : ReclaimDecision) (c : Counters) : Counters :=
  {| count_files := count_files c - 1;
     count_unique := count_unique c - (if d is Reclaim _ _ then 1 else 0);
     sum_total := sum_total c - Z.of_nat (nominal_size f);
     sum_actual := sum_actual c - (if d is Reclaim _ sz then Z.of_nat sz else 0) |}%Z.

(** Modelled from the spec: the upload endpoint; hashes the stream, calls
    [put_or_link], then File Index [create]. *)
Definition upload (disk : Disk) (meta : Metadata) (s : Stream) (st : State)
  : State * Result FileId :=
  match hasher s with
  | Err e => (st, Err e)
  | Ok fp =>
      let size := String.length (stream_bytes s) in
      match put_or_link disk fp (stream_bytes s) size st with
      | (st1, Err e) => (st1, Err e)
      | (st1, Ok ref) =>
          let '(st2, id) := index_create meta size ref st1 in
          (set_counters (count_upload size ref (counters st2)) st2, Ok id)
      end
  end.

(** Modelled from the spec: the logical delete; File Index [delete], then
    Blob Store [unlink] of the fingerprint it returned.  An error of
    either step, or of the storage behind them, aborts the whole
    operation. *)
Definition delete_file (disk : Disk) (id : FileId) (st : State)
  : State * Result ReclaimDecision :=
  match index_delete id st with
  | (_, Err e) => (st, Err e)
  | (st1, Ok f) =>
      match disk with
      | DiskOk =>
          match unlink (fingerprint f) st1 with
          | (_, Err e) => (st, Err e)
          | (st2, Ok d) =>
              (set_counters (count_delete f d (counters st2)) st2, Ok d)
          end
      | _ => (st, Err IOFailure)
      end
  end.

(** Modelled from the spec: the delete endpoint; the logical delete, with
    any reclaim decision forwarded to the Reclaimer. *)
Definition delete_endpoint (disk rdisk : Disk) (id : FileId) (st : State)
  : State * Result ReclaimDecision :=
  match delete_file disk id st with
  | (st1, Ok (Reclaim fp sz)) => (reclaim rdisk fp st1, Ok (Reclaim fp sz))
  | r => r
  end.

(** Modelled from the spec: the Statistics Aggregator by full
    recomputation from File Index and Blob Store. *)
Definition recompute (st : State) : StorageStatistics :=
  let tf := Z.of_nat (size (files st)) in
  let uf := Z.of_nat (size (filter (λ kv, live kv.2) (blobs st))) in
  let ts := msum (λ f, Z.of_nat (nominal_size f)) (files st) in
  let az := msum (λ b, Z.of_nat (blob_size b)) (filter (λ kv, live kv.2) (blobs st)) in
  {| total_files := tf; unique_files := uf; duplicate_files := tf - uf;
     total_size := ts; actual_size := az; storage_saved := ts - az |}%Z.

(** Modelled from the spec: the Statistics Aggregator by incremental
    counters; the two differences are taken when the snapshot is
    published. *)
Definition snapshot (st : State) : StorageStatistics :=
  let c := counters st in
  {| total_files := count_files c; unique_files := count_unique c;
     duplicate_files := count_files c - count_unique c;
     total_size := sum_total c; actual_size := sum_actual c;
     storage_saved := sum_total c - sum_actual c |}%Z.

(** Modelled from the spec: the requests the engine serves, an upload, a
    logical delete, and a run of the Reclaimer on a fingerprint; [step]
    runs one as a whole transaction, and [reachable] are the states
    between whole transactions. *)
Inductive Op :=
  | OpUpload (disk : Disk) (meta : Metadata) (s : Stream)
  | OpDelete (disk : Disk) (id : FileId)
  | OpReclaim (disk : Disk) (fp : Fingerprint).

Definition step (op : Op) (st : State) : State :=
  match op with
  | OpUpload disk meta s => (upload disk meta s st).1
  | OpDelete disk id => (delete_file disk id st).1
  | OpReclaim disk fp => reclaim disk fp st
  end.

Inductive reachable : State → Prop :=
  | reach_init : reachable init
  | reach_step op st : reachable st → reachable (step op st).

Definition writes_of (fp : Fingerprint) (h : list PhysEvent) : nat :=
  length (filter (λ e, e = PhysWrite fp) h).

Definition deletions_of (fp : Fingerprint) (h : list PhysEvent) : nat :=
  length (filter (λ e, e = PhysDelete fp) h).

Definition refcount_of (fp : Fingerprint) (st : State) : nat :=
  match blobs st !! fp with
  | Some b => reference_count b
  | None => 0
  end.

(** Modelled from the spec: between whole transactions a snapshot is
    published by either of the two aggregation strategies. *)
Definition publishes (st : State) (s : StorageStatistics) : Prop :=
  s = recompute st ∨ s = snapshot st.

(** Successful uploads of the same content, one per metadata record, and
    the identities they return. *)
Fixpoint upload_many (metas : list Metadata) (c : Content) (st : State)
  : State * list FileId :=
  match metas with
  | [] => (st, [])
  | meta :: metas' =>
      match upload DiskOk meta (Complete c) st with
      | (st1, Ok id) =>
          let '(st2, ids) := upload_many metas' c st1 in (st2, id :: ids)
      | (st1, Err _) => upload_many metas' c st1
      end
  end.

(** Deletions through the delete endpoint, one after the other. *)
Fixpoint delete_many (ids : list FileId) (st : State) : State :=
  match ids with
  | [] => st
  | id :: ids' => delete_many ids' (delete_endpoint DiskOk DiskOk id st).1
  end.

(** *** Concurrent requests

    Requests run side by side.  Each takes its atomic actions one at a
    time, and a scheduler interleaves the actions of all requests in any
    order.  An upload hashes its stream and enters the critical section
    of the fingerprint; inside, it looks the Blob up and either
    increments its count, or persists the stream and then commits the
    Blob record; it leaves the critical section and calls File Index
    [create], which is one transaction with the counter update.  A
    delete removes the FileEntry, one transaction with the counter
    update, and then calls [unlink].  [unlink] and the Reclaimer take
    the critical section of the fingerprint for their single action.
    The critical section is the per-fingerprint lock, the first of the
    guards the design names.  A request that arrives later is one that
    the scheduler has not picked yet. *)

(** Modelled from the spec: how a request ends; with the identity of the
    new file, with the decision of [unlink], after the Reclaimer's run,
    or with an error. *)
Inductive Outcome :=
  | Uploaded (id : FileId)
  | Unlinked (d : ReclaimDecision)
  | Reclaimed
  | Failed (e : Error).

(** Modelled from the spec: a request in flight.  An upload is waiting,
    inside the critical section before the lookup, after a lookup that
    found no Blob, after the write, or past [put_or_link] with its
    reference; a delete is waiting, or between File Index [delete] and
    [unlink]; the Reclaimer is waiting. *)
Inductive Thread :=
  | Waiting (op : Op)
  | UInside (disk : Disk) (meta : Metadata) (c : Content)
  | UWriting (disk : Disk) (meta : Metadata) (c : Content)
  | UWritten (meta : Metadata) (c : Content)
  | ULinked (meta : Metadata) (c : Content) (ref : BlobRef)
  | DRemoved (f : FileEntry)
  | Finished (o : Outcome).

(** Modelled from the spec: the engine with requests in flight; the
    fingerprints whose critical section is taken, and the requests. *)
Record Config := mkConfig {
  store : State;
  locks : gset Fingerprint;
  pool : list Thread
}.

(** Modelled from the spec: the counter update that is one transaction
    with File Index [create]; the Blob is newly in use when no FileEntry
    points at it yet.  For a request that runs alone this is
    [count_upload]. *)
Definition count_create (size : nat) (ref : BlobRef) (st : State) : Counters :=
  let c := counters st in
  let fresh :=
    bool_decide (mcount (references (ref_fingerprint ref)) (files st) = 0%Z) in
  {| count_files := count_files c + 1;
     count_unique := count_unique c + (if fresh then 1 else 0);
     sum_total := sum_total c + Z.of_nat size;
     sum_actual := sum_actual c + (if fresh then Z.of_nat (ref_size ref) else 0) |}%Z.

(** Modelled from the spec: the counter update that is one transaction
    with File Index [delete]; the Blob is no longer in use when no other
    FileEntry points at it.  [st] is the state without the FileEntry.
    For a request that runs alone this is [count_delete]. *)
Definition count_remove (f : FileEntry) (st : State) : Counters :=
  let c := counters st in
  let last :=
    bool_decide (mcount (references (fingerprint f)) (files st) = 0%Z) in
  {| count_files := count_files c - 1;
     count_unique := count_unique c - (if last then 1 else 0);
     sum_total := sum_total c - Z.of_nat (nominal_size f);
     sum_actual := sum_actual c - (if last then Z.of_nat (nominal_size f) else 0) |}%Z.

(** Modelled from the spec: the next atomic action of a request, on the
    store and the critical sections.  A request that needs a critical
    section that is taken waits: its action changes nothing. *)
Definition act (t : Thread) (st : State) (lk : gset Fingerprint)
  : State * gset Fingerprint * Thread :=
  match t with
  | Waiting (OpUpload disk meta s) =>
      match hasher s with
      | Err e => (st, lk, Finished (Failed e))
      | Ok fp =>
          if decide (fp ∈ lk) then (st, lk, t)
          else (st, {[fp]} ∪ lk, UInside disk meta (stream_bytes s))
      end
  | UInside disk meta c =>
      match blobs st !! hash c with
      | Some b =>
          let n := S (reference_count b) in
          (set_blobs (<[hash c := mkBlob (blob_size b) n]> (blobs st)) st,
           lk ∖ {[hash c]},
           ULinked meta c (mkBlobRef (hash c) (blob_size b) n))
      | None => (st, lk, UWriting disk meta c)
      end
  | UWriting disk meta c =>
      match disk with
      | DiskOk =>
          ({| blobs := blobs st;
              physical := <[hash c := c]> (physical st);
              files := files st;
              next_id := next_id st;
              counters := counters st;
              history := PhysWrite (hash c) :: history st |},
           lk, UWritten meta c)
      | DiskError => (st, lk ∖ {[hash c]}, Finished (Failed IOFailure))
      | DiskFull => (st, lk ∖ {[hash c]}, Finished (Failed CapacityExceeded))
      end
  | UWritten meta c =>
      (set_blobs (<[hash c := mkBlob (String.length c) 1]> (blobs st)) st,
       lk ∖ {[hash c]},
       ULinked meta c (mkBlobRef (hash c) (String.length c) 1))
  | ULinked meta c ref =>
      let '(st1, id) := index_create meta (String.length c) ref st in
      (set_counters (count_create (String.length c) ref st) st1, lk,
       Finished (Uploaded id))
  | Waiting (OpDelete disk id) =>
      match index_delete id st with
      | (_, Err e) => (st, lk, Finished (Failed e))
      | (st1, Ok f) =>
          match disk with
          | DiskOk => (set_counters (count_remove f st1) st1, lk, DRemoved f)
          | _ => (st, lk, Finished (Failed IOFailure))
          end
      end
  | DRemoved f =>
      if decide (fingerprint f ∈ lk) then (st, lk, t)
      else
        match unlink (fingerprint f) st with
        | (st1, Ok d) => (st1, lk, Finished (Unlinked d))
        | (st1, Err e) => (st1, lk, Finished (Failed e))
        end
  | Waiting (OpReclaim disk fp) =>
      if decide (fp ∈ lk) then (st, lk, t)
      else (reclaim disk fp st, lk, Finished Reclaimed)
  | Finished o => (st, lk, t)
  end.

(** Modelled from the spec: the scheduler lets request [i] take its next
    action. *)
Definition sched_step (cfg : Config) (i : nat) : Config :=
  match pool cfg !! i with
  | Some t =>
      let '(st', lk', t') := act t (store cfg) (locks cfg) in
      mkConfig st' lk' (<[i := t']> (pool cfg))
  | None => cfg
  end.

Definition interleave (sched : list nat) (cfg : Config) : Config :=
  fold_left sched_step sched cfg.

(** The requests [ops] arrive at the engine in the state [st]. *)
Definition start (st : State) (ops : list Op) : Config :=
  mkConfig st ∅ (Waiting <$> ops).

(** Uploads of the same content, one per metadata record. *)
Definition uploads_of (metas : list Metadata) (c : Content) : list Op :=
  (λ meta, OpUpload DiskOk meta (Complete c)) <$> metas.

Definition is_finished (t : Thread) : bool :=
  match t with
  | Finished _ => true
  | _ => false
  end.

(** The identity an upload returned. *)
Definition uploaded_id (t : Thread) : option FileId :=
  match t with
  | Finished (Uploaded id) => Some id
  | _ => None
  end.

Definition uploaded_ids (pool : list Thread) : list FileId :=
  omap uploaded_id pool.

(** The fingerprint a request holds a reference to that no FileEntry
    accounts for: an upload between [put_or_link] and [create], a delete
    between File Index [delete] and [unlink]. *)
Definition holds_ref (t : Thread) : option Fingerprint :=
  match t with
  | ULinked _ c _ => Some (hash c)
  | DRemoved f => Some (fingerprint f)
  | _ => None
  end.

(** The fingerprint whose critical section a request is in. *)
Definition inside (t : Thread) : option Fingerprint :=
  match t with
  | UInside _ _ c | UWriting _ _ c | UWritten _ c => Some (hash c)
  | _ => None
  end.

(** The fingerprint a request has found no Blob for, inside its critical
    section. *)
Definition creating (t : Thread) : option Fingerprint :=
  match t with
  | UWriting _ _ c | UWritten _ c => Some (hash c)
  | _ => None
  end.

(** The fingerprint a request has written and not yet committed. *)
Definition written (t : Thread) : option Fingerprint :=
  match t with
  | UWritten _ c => Some (hash c)
  | _ => None
  end.

(** How many requests of the pool are tagged with the fingerprint. *)
Definition tagged (tag : Thread → option Fingerprint) (fp : Fingerprint)
    (pool : list Thread) : nat :=
  length (filter (λ t, tag t = Some fp) pool).

(** No request holds a reference that no FileEntry accounts for. *)
Definition settled (pool : list Thread) : Prop :=
  Forall (λ t, holds_ref t = None) pool.

(** A Blob in use as of the requests that have committed: its reference
    count is positive without the references that requests in flight
    hold. *)
Definition in_use (pool : list Thread) (kv : Fingerprint * Blob) : Prop :=
  tagged holds_ref kv.1 pool < reference_count kv.2.

#[global] Instance in_use_dec pool kv : Decision (in_use pool kv).
Proof. unfold in_use. apply _. Defined.

(** The actions a request has left, at most. *)
Definition todo (t : Thread) : nat :=
  match t with
  | Waiting _ => 5
  | UInside _ _ _ => 4
  | UWriting _ _ _ => 3
  | UWritten _ _ => 2
  | ULinked _ _ _ => 1
  | DRemoved _ => 1
  | Finished _ => 0
  end.

Definition todo_all (pool : list Thread) : nat := sum_list (todo <$> pool).

(** A request that has changed nothing in the store: it has not come to
    its first change yet, or it has failed. *)
Definition clean (t : Thread) : Prop :=
  match t with
  | Waiting _ | UInside _ _ _ | UWriting _ _ _ | Finished (Failed _) => True
  | _ => False
  end.

(** The whole transaction that an action commits, if any: File Index
    [create] commits an upload, File Index [delete] a logical delete, and
    the Reclaimer's action, on a Blob without references, its run. *)
Definition commits (t : Thread) (st : State) (lk : gset Fingerprint) : option Op :=
  match t with
  | ULinked meta c _ => Some (OpUpload DiskOk meta (Complete c))
  | Waiting (OpDelete disk id) => Some (OpDelete disk id)
  | Waiting (OpReclaim disk fp) =>
      if decide (fp ∈ lk) then None
      else if decide (refcount_of fp st = 0) then Some (OpReclaim disk fp)
      else None
  | _ => None
  end.

Definition commit_step (cfg : Config) (i : nat) : list Op :=
  match pool cfg !! i with
  | Some t =>
      match commits t (store cfg) (locks cfg) with
      | Some op => [op]
      | None => []
      end
  | None => []
  end.

(** The transactions a schedule commits, in the order of their commit. *)
Fixpoint committed (sched : list nat) (cfg : Config) : list Op :=
  match sched with
  | [] => []
  | i :: sched' => commit_step cfg i ++ committed sched' (sched_step cfg i)
  end.

(** Whole transactions, one after the other. *)
Definition run_ops (ops : list Op) (st : State) : State :=
  fold_left (λ st op, step op st) ops st.

(** The engine as of the requests that have committed. *)
Definition linearization (sched : list nat) (st0 : State) (ops : list Op) : State :=
  run_ops (committed sched (start st0 ops)) st0.

(** Modelled from the spec: the full recomputation while requests are in
    flight; it scans the File Index and the Blob Store and counts a Blob
    when it is in use as of the requests that have committed, leaving
    out the references that are still pending. *)
Definition rescan (cfg : Config) : StorageStatistics :=
  let st := store cfg in
  let tf := Z.of_nat (size (files st)) in
  let uf := Z.of_nat (size (filter (in_use (pool cfg)) (blobs st))) in
  let ts := msum (λ f, Z.of_nat (nominal_size f)) (files st) in
  let az := msum (λ b, Z.of_nat (blob_size b))
                 (filter (in_use (pool cfg)) (blobs st)) in
  {| total_files := tf; unique_files := uf; duplicate_files := tf - uf;
     total_size := ts; actual_size := az; storage_saved := ts - az |}%Z.

(** Modelled from the spec: the snapshot the Statistics Aggregator
    publishes while requests are in flight.  The incremental counters
    are read at any moment; the full recomputation is [rescan], or, at a
    moment when no request holds a reference of its own, the plain scan
    [recompute] of the two stores. *)
Definition publishes_during (cfg : Config) (s : StorageStatistics) : Prop :=
  s = snapshot (store cfg) ∨ s = rescan cfg ∨
  (settled (pool cfg) ∧ s = recompute (store cfg)).

(** *** Invariants of the reachable states *)

Record inv (st : State) : Prop := {
  inv_fresh : ∀ id f, files st !! id = Some f → id < next_id st;
  inv_link : ∀ id f,
    files st !! id = Some f → is_Some (blobs st !! fingerprint f);
  inv_refcount : ∀ fp b,
    blobs st !! fp = Some b →
    Z.of_nat (reference_count b) = mcount (references fp) (files st);
  inv_physical : ∀ fp, physical st !! fp = None ↔ blobs st !! fp = None;
  inv_files_sum :
    Z.of_nat (size (files st)) =
    msum (λ b, Z.of_nat (reference_count b)) (blobs st);
  inv_history : ∀ fp,
    writes_of fp (history st) =
    deletions_of fp (history st) + (if blobs st !! fp is Some _ then 1 else 0);
  inv_count_files : count_files (counters st) = Z.of_nat (size (files st));
  inv_count_unique : count_unique (counters st) = mcount live (blobs st)
}.

Record inv_size (st : State) : Prop := {
  inv_blob_content : ∀ fp b,
    blobs st !! fp = Some b →
    ∃ c, physical st !! fp = Some c ∧ hash c = fp ∧
         blob_size b = String.length c;
  inv_file_content : ∀ id f,
    files st !! id = Some f →
    ∃ c, hash c = fingerprint f ∧ nominal_size f = String.length c;
  inv_size_sum :
    msum (λ f, Z.of_nat (nominal_size f)) (files st) =
    msum (λ b, Z.of_nat (reference_count b) * Z.of_nat (blob_size b))%Z
         (blobs st);
  inv_sum_total :
    sum_total (counters st) =
    msum (λ f, Z.of_nat (nominal_size f)) (files st);
  inv_sum_actual :
    sum_actual (counters st) =
    msum (λ b, indicator live b * Z.of_nat (blob_size b))%Z (blobs st)
}.

(** What the uploads and deletes of one content keep true: [n] entries
    point at the fingerprint, those of [ids] among them, and the Blob, if
    there is one, is referenced. *)
Record tracked (fp : Fingerprint) (ids : list FileId) (n : Z) (st : State) : Prop := {
  tracked_reachable : reachable st;
  tracked_count : mcount (references fp) (files st) = n;
  tracked_ids : ∀ id, id ∈ ids →
    ∃ f, files st !! id = Some f ∧ fingerprint f = fp;
  tracked_settled : ∀ b, blobs st !! fp = Some b → 0 < reference_count b
}.

(** The reference of an upload past [put_or_link] is the one of its
    content. *)
Definition linked_ok (t : Thread) : Prop :=
  match t with
  | ULinked _ c ref => ref_fingerprint ref = hash c
  | _ => True
  end.

Definition linked_size_ok (t : Thread) : Prop :=
  match t with
  | ULinked _ c ref => ref_size ref = String.length c
  | _ => True
  end.

(** What every interleaving keeps true: the state [L], reached by whole
    transactions, is the engine as of the requests that have passed
    their File Index action.  It has the same File Index and the same
    counters, and its reference counts are those of the store less the
    references held by requests in flight. *)
Record linearized (cfg : Config) (L : State) : Prop := {
  lz_reachable : reachable L;
  lz_files : files L = files (store cfg);
  lz_next : next_id L = next_id (store cfg);
  lz_count_files : count_files (counters L) = count_files (counters (store cfg));
  lz_count_unique : count_unique (counters L) = count_unique (counters (store cfg));
  lz_refcount : ∀ fp,
    refcount_of fp (store cfg) = refcount_of fp L + tagged holds_ref fp (pool cfg);
  lz_present : ∀ fp,
    is_Some (blobs L !! fp) → is_Some (blobs (store cfg) !! fp);
  lz_holders : ∀ fp,
    tagged inside fp (pool cfg) = if decide (fp ∈ locks cfg) then 1 else 0;
  lz_creating : ∀ fp,
    is_Some (blobs (store cfg) !! fp) → tagged creating fp (pool cfg) = 0;
  lz_history : ∀ fp,
    writes_of fp (history (store cfg)) =
    deletions_of fp (history (store cfg)) +
    (if blobs (store cfg) !! fp is Some _ then 1 else 0) +
    tagged written fp (pool cfg);
  lz_linked : Forall linked_ok (pool cfg)
}.

Record linearized_size (cfg : Config) (L : State) : Prop := {
  lzs_total : sum_total (counters L) = sum_total (counters (store cfg));
  lzs_actual : sum_actual (counters L) = sum_actual (counters (store cfg));
  lzs_blob : ∀ fp b,
    blobs (store cfg) !! fp = Some b →
    ∃ c, hash c = fp ∧ blob_size b = String.length c;
  lzs_linked : Forall linked_size_ok (pool cfg)
}.

(** A request of a pool that uploads the content [c] and nothing else. *)
Definition uploads (c : Content) (t : Thread) : Prop :=
  match t with
  | Waiting (OpUpload DiskOk _ (Complete c')) => c' = c
  | UInside DiskOk _ c' | UWriting DiskOk _ c' | UWritten _ c' => c' = c
  | ULinked _ c' ref => c' = c
  | Finished (Uploaded _) => True
  | _ => False
  end.

(** What every interleaving of concurrent uploads of the content [c],
    started in the state [st0], keeps true of the File Index and of the
    history. *)
Record uploading (c : Content) (st0 : State) (cfg : Config) : Prop := {
  up_threads : Forall (uploads c) (pool cfg);
  up_fresh : ∀ id f, files (store cfg) !! id = Some f → id < next_id (store cfg);
  up_next : (next_id st0 ≤ next_id (store cfg))%nat;
  up_size :
    size (files (store cfg)) = size (files st0) + length (uploaded_ids (pool cfg));
  up_refs :
    mcount (references (hash c)) (files (store cfg)) =
    (mcount (references (hash c)) (files st0) +
     Z.of_nat (length (uploaded_ids (pool cfg))))%Z;
  up_ids : ∀ id, id ∈ uploaded_ids (pool cfg) →
    (next_id st0 ≤ id)%nat ∧
    ∃ f, files (store cfg) !! id = Some f ∧ fingerprint f = hash c;
  up_nodup : NoDup (uploaded_ids (pool cfg));
  up_history : ∃ n,
    history (store cfg) = (replicate n (PhysWrite (hash c)) ++ history st0)%list
}.

End WithHash.

(** *** A sample run

    The example scenario of the design document: two files with the
    content "hello", uploaded and then deleted again.  The hash of the
    examples is the content itself, which is collision-free. *)

Definition plain_hash (c : Content) : Fingerprint := c.

Definition meta_a : Metadata :=
  {| display_name := "a.txt"; owner := "alice"; upload_time := 1 |}.

Definition meta_b : Metadata :=
  {| display_name := "b.txt"; owner := "bob"; upload_time := 2 |}.

Definition meta_c : Metadata :=
  {| display_name := "c.txt"; owner := "carol"; upload_time := 3 |}.

Definition upload_hello (meta : Metadata) : Op :=
  OpUpload DiskOk meta (Complete "hello").

Definition one_hello : State := step plain_hash (upload_hello meta_a) init.

Definition two_hellos : State := step plain_hash (upload_hello meta_b) one_hello.

(** File A deleted, file B still there. *)
Definition hello_b_left : State := (delete_endpoint DiskOk DiskOk 0 two_hellos).1.

(** Both files deleted and the Blob reclaimed. *)
Definition no_hello : State := (delete_endpoint DiskOk DiskOk 1 hello_b_left).1.

(** The one file deleted, the Reclaimer not yet run. *)
Definition unlinked_hello : State := step plain_hash (OpDelete DiskOk 0) one_hello.

Definition three_metas : list Metadata := [meta_a; meta_b; meta_c].

(** Three uploads of "hello" into the empty store. *)
Definition three_hellos : State :=
  (upload_many plain_hash three_metas "hello" init).1.

(** The content uploaded, deleted, reclaimed, and uploaded again. *)
Definition hello_again : State :=
  step plain_hash (upload_hello meta_b)
    (step plain_hash (OpReclaim DiskOk "hello") unlinked_hello).

(** Two uploads of "hello" arrive together. *)
Definition two_uploads : list Op := [upload_hello meta_a; upload_hello meta_b].

(** The first upload is past [put_or_link] and has not yet called File
    Index [create]; the second has not started. *)
Definition until_linked : list nat := [0; 0; 0; 0].

Definition first_linked : Config :=
  interleave plain_hash until_linked (start init two_uploads).

(** The second upload has overtaken the first and has finished. *)
Definition until_overtaken : list nat := [0; 0; 0; 0; 1; 1; 1].

Definition second_done : Config :=
  interleave plain_hash until_overtaken (start init two_uploads).

Definition both_done : Config := interleave plain_hash [0] second_done.

(** An upload and the deletion of its file, then a second upload of the
    content that calls [put_or_link] before the Reclaimer runs. *)
Definition revival : list Op :=
  [upload_hello meta_a; OpDelete DiskOk 0; upload_hello meta_b;
   OpReclaim DiskOk "hello"].

Definition until_revived : list nat := [0; 0; 0; 0; 0; 1; 1; 2; 2; 3; 2].

Definition revived : Config :=
  interleave plain_hash until_revived (start init revival).

End Engine.

(** ** The rendered components

    The rest of the two components: which controls the filter bar offers
    in a state, a session of user events, and the body of the statistics
    widget. *)

Module SearchFilterView.

Import SearchFilter.

(** The [name] attributes of the inputs inside [{isExpanded && (...)}]. *)
Definition advanced_names : list string :=
  ["fileType"; "sizeMin"; "sizeMax"; "uploadedFrom"; "uploadedTo"].

(** The events the JSX offers in a state: the search box, the toggle and
    the apply button always, the five advanced inputs only while
    [isExpanded], the clear button only while some value is not empty. *)
Definition offered (st : State) (e : Event) : Prop :=
  match e with
  | Input name _ =>
      name = "search" ∨ (isExpanded st = true ∧ name ∈ advanced_names)
  | Clear => clear_visible st = true
  | Apply | Toggle => True
  end.

(** A session: the events are handled one after the other, and the calls
    of [onFilterChange] are collected in order. *)
Fixpoint run (es : list Event) (st : State) : State * Calls :=
  match es with
  | [] => (st, [])
  | e :: es' =>
      let '(st1, calls1) := handle e st in
      let '(st2, calls2) := run es' st1 in
      (st2, (calls1 ++ calls2)%list)
  end.

(** Every event of the session is offered in the state it meets. *)
Fixpoint offered_all (es : list Event) (st : State) : Prop :=
  match es with
  | [] => True
  | e :: es' => offered st e ∧ offered_all es' (handle e st).1
  end.

Definition notifies (e : Event) : bool :=
  match e with
  | Apply | Clear => true
  | Input _ _ | Toggle => false
  end.

Definition is_toggle (e : Event) : bool :=
  match e with
  | Toggle => true
  | _ => false
  end.

(** Every input emptied by hand, in the order of the fields. *)
Definition empty_all : list Event := (λ name, Input name "") <$> field_names.

Definition sample_session : list Event :=
  [Input "search" "report"; Toggle; Input "sizeMin" "10"; Toggle; Apply;
   Input "search" ""; Apply; Clear].

End SearchFilterView.

Module StorageStatsView.

Import StorageStats.

(** What [useQuery] hands to the component: the data, if any, the loading
    flag and the error, if any. *)
Record Query := mkQuery {
  data : option StorageStatistics;
  isLoading : bool;
  error : option string
}.

(** What the component returns: the pulsing placeholder, [null], or the
    panel with its four labelled cells and the footer line. *)
Inductive View :=
  | Skeleton
  | Nothing
  | Panel (cells : list (string * string)) (footer : string).

Section Render.

Variable log_index : Z → Z.

(** [new Date(s).toLocaleString()], which depends on the locale and time
    zone of the runtime. *)
Variable toLocaleString : string → string.

(** The body of the component [StorageStats].  The two counts are shown
    as JSX shows a number, in decimal digits, which is [pretty] for a
    whole number below [10^21]. *)
Definition render (q : Query) : View :=
  if isLoading q then Skeleton
  else
    match error q, data q with
    | Some _, _ => Nothing
    | None, None => Nothing
    | None, Some stats =>
        Panel
          [("Total Files", pretty (total_files stats));
           ("Unique Files", pretty (unique_files stats));
           ("Total Storage", formatBytes log_index (total_size stats));
           ("Storage Saved", formatBytes log_index (storage_saved stats))]
          ("Last updated: " ++ toLocaleString (last_updated stats))
    end.

End Render.

End StorageStatsView.

(** * Properties *)

(** ** Objects *)

Module JsFacts.

Import Js.

Lemma truthy_spec v : truthy v = true ↔ v ≠ "".
Proof. destruct v; simpl; split; congruence. Qed.

Lemma keys_set k v o : k ∈ keys o → keys (set k v o) = keys o.
Proof.
  unfold keys. induction o as [|[k' v'] o IH]; simpl.
  - intros H. inversion H.
  - intros H. destruct (decide (k' = k)) as [->|Hne]; simpl; [done|].
    f_equal. apply IH. apply elem_of_cons in H as [H|H]; [congruence|done].
Qed.

Lemma get_set_eq k v o : get k (set k v o) = Some v.
Proof.
  induction o as [|[k' v'] o IH]; simpl.
  - by rewrite decide_True.
  - destruct (decide (k' = k)) as [->|Hne]; simpl.
    + by rewrite decide_True.
    + by rewrite decide_False.
Qed.

Lemma get_set_ne k k' v o : k ≠ k' → get k' (set k v o) = get k' o.
Proof.
  intros Hne. induction o as [|[k0 v0] o IH]; simpl.
  - by rewrite decide_False.
  - destruct (decide (k0 = k)) as [->|Hne0]; simpl.
    + by rewrite !decide_False.
    + by rewrite IH.
Qed.

Lemma get_Some_elem k v o : get k o = Some v → (k, v) ∈ o.
Proof.
  induction o as [|[k' v'] o IH]; simpl; [done|].
  destruct (decide (k' = k)) as [->|Hne].
  - intros [= ->]. left.
  - intros H. right. auto.
Qed.

Lemma get_None k o : get k o = None ↔ k ∉ keys o.
Proof.
  unfold keys. induction o as [|[k' v'] o IH]; simpl.
  - split; [intros _ H; inversion H|reflexivity].
  - destruct (decide (k' = k)) as [->|Hne].
    + split; [discriminate|]. intros H. exfalso. apply H. left.
    + rewrite IH. rewrite not_elem_of_cons. naive_solver.
Qed.

End JsFacts.

(** ** The search and filter bar *)

Module SearchFilterFacts.

Import SearchFilter.

Lemma reachable_keys st : reachable st → Js.keys (filterValues st) = field_names.
Proof.
  induction 1 as [|st e Hst IH Hr]; [done|].
  destruct e as [name value| | |]; simpl in *; try done.
  rewrite JsFacts.keys_set; [done|]. by rewrite IH.
Qed.

Lemma collect_fold_lookup (fv : Js.Obj) : ∀ (acc : gmap string string) k,
  NoDup (Js.keys fv) →
  fold_left collect fv acc !! k =
    match Js.get k fv with
    | Some v => if Js.truthy v then Some v else acc !! k
    | None => acc !! k
    end.
Proof.
  induction fv as [|[k' v'] fv IH]; intros acc k Hnd; simpl; [done|].
  unfold Js.keys in Hnd. simpl in Hnd. apply NoDup_cons in Hnd as [Hnotin Hnd].
  rewrite IH by done. unfold collect. simpl.
  destruct (decide (k' = k)) as [->|Hne].
  - apply JsFacts.get_None in Hnotin. rewrite Hnotin.
    destruct (Js.truthy v'); [by rewrite lookup_insert_eq|done].
  - destruct (Js.get k fv) as [v|]; [destruct (Js.truthy v); [done|]|];
      destruct (Js.truthy v'); by rewrite ?lookup_insert_ne.
Qed.

Lemma field_names_NoDup : NoDup field_names.
Proof. apply (bool_decide_unpack _). by vm_compute. Qed.

(** C1. In every state of the filter bar, the record that [applyFilters]
    hands to [onFilterChange] has an entry [k ↦ v] exactly when [k] is one
    of the six fields, [v] is its current value and [v] is not the empty
    string; so empty fields are left out and the others go through
    unchanged.  The state is not modified and the callback runs once. *)
Theorem applyFilters_nonempty_fields st :
  reachable st →
  ∃ filters,
    applyFilters st = (st, [filters]) ∧
    Js.keys (filterValues st) = field_names ∧
    ∀ k v, filters !! k = Some v ↔
           k ∈ field_names ∧ Js.get k (filterValues st) = Some v ∧ v ≠ "".
Proof.
  intros Hst. pose proof (reachable_keys st Hst) as Hkeys.
  exists (filters_of (filterValues st)). split; [done|]. split; [done|].
  intros k v. unfold filters_of, Js.entries.
  rewrite collect_fold_lookup by (rewrite Hkeys; apply field_names_NoDup).
  rewrite lookup_empty.
  destruct (Js.get k (filterValues st)) as [w|] eqn:Hget.
  - assert (k ∈ field_names) as Hin.
    { rewrite <- Hkeys. apply JsFacts.get_Some_elem in Hget.
      unfold Js.keys. apply list_elem_of_fmap. by exists (k, w). }
    destruct (Js.truthy w) eqn:Hw.
    + apply JsFacts.truthy_spec in Hw. split.
      * intros [= ->]. done.
      * intros (_ & [= ->] & _). done.
    + split; [done|]. intros (_ & [= ->] & Hv).
      apply JsFacts.truthy_spec in Hv. congruence.
  - split; [done|]. intros (_ & ? & _). done.
Qed.

Lemma applyFilters_nonempty_fields_witness :
  reachable sample_state ∧
  ∃ filters,
    applyFilters sample_state = (sample_state, [filters]) ∧
    Js.keys (filterValues sample_state) = field_names ∧
    ∀ k v, filters !! k = Some v ↔
           k ∈ field_names ∧ Js.get k (filterValues sample_state) = Some v ∧ v ≠ "".
Proof.
  assert (reachable sample_state) as Hr.
  { unfold sample_state.
    apply reach_step; [apply reach_step; [apply reach_initial|]|];
      unfold rendered; apply (bool_decide_unpack _); vm_compute; exact I. }
  split; [exact Hr|].
  exact (applyFilters_nonempty_fields sample_state Hr).
Defined.

(** The record for the sample state, evaluated. *)
Example applyFilters_sample :
  (applyFilters sample_state).2 =
  [<["search" := "report"]> (<["fileType" := "image/"]> ∅)].
Proof. vm_compute. reflexivity. Qed.

(** C10. Whatever the filter state was, [clearFilters] leaves each of the
    six fields holding the empty string and calls [onFilterChange] once,
    with the empty record. *)
Theorem clearFilters_resets st :
  let '(st', calls) := clearFilters st in
  Js.keys (filterValues st') = field_names ∧
  (∀ k, k ∈ field_names → Js.get k (filterValues st') = Some "") ∧
  isExpanded st' = isExpanded st ∧
  calls = [∅].
Proof.
  simpl. split; [done|]. split; [|done].
  intros k Hk. unfold field_names in Hk.
  repeat (apply elem_of_cons in Hk as [->|Hk]; [done|]).
  inversion Hk.
Qed.

End SearchFilterFacts.

(** ** The statistics widget *)

Module StorageStatsFacts.

Import StorageStats.

Lemma formatBytes_zero log_index : formatBytes log_index 0 = "0 Bytes".
Proof. reflexivity. Qed.

Lemma exact_index_spec bytes :
  (0 < bytes)%Z →
  (0 ≤ exact_index bytes ∧
   k ^ exact_index bytes ≤ bytes < k ^ (exact_index bytes + 1))%Z.
Proof.
  intros Hpos. unfold exact_index, k.
  pose proof (Z.log2_spec bytes Hpos) as [Hlo Hhi].
  pose proof (Z.log2_nonneg bytes) as Hnn.
  set (l := Z.log2 bytes) in *.
  assert (0 ≤ l / 10)%Z as Hq by (apply Z.div_pos; lia).
  assert (10 * (l / 10) ≤ l < 10 * (l / 10 + 1))%Z as [Hl1 Hl2].
  { pose proof (Z.div_mod l 10 ltac:(lia)) as Hdm.
    pose proof (Z.mod_pos_bound l 10 ltac:(lia)). lia. }
  change 1024%Z with (2 ^ 10)%Z.
  rewrite <- !Z.pow_mul_r by lia.
  split; [done|]. split.
  - etrans; [|exact Hlo]. apply Z.pow_le_mono_r; lia.
  - eapply Z.lt_le_trans; [exact Hhi|]. apply Z.pow_le_mono_r; lia.
Qed.

(** With the exact index, a whole byte count from 1 to below [1024^5]
    is divided by the power of 1024 below it, rounded to hundredths and
    followed by one of the five units. *)
Lemma formatBytes_exact_index bytes :
  (0 < bytes < 1024 ^ 5)%Z →
  ∃ u, sizes !! Z.to_nat (exact_index bytes) = Some u ∧
       formatBytes exact_index bytes =
       show_hundredths (toFixed2 bytes (k ^ exact_index bytes)) ++ " " ++ u.
Proof.
  intros [Hpos Hlt]. unfold formatBytes.
  destruct (Z.eqb_spec bytes 0) as [->|_]; [lia|].
  pose proof (Z.log2_nonneg bytes) as Hnn.
  assert (Z.log2 bytes < 50)%Z as Hlog.
  { apply Z.log2_lt_pow2; [done|]. exact Hlt. }
  unfold unit_name, exact_index.
  assert (0 ≤ Z.log2 bytes / 10 < 5)%Z as [Hlo Hhi].
  { split; [apply Z.div_pos; lia|apply Z.div_lt_upper_bound; lia]. }
  destruct (Z.ltb_spec (Z.log2 bytes / 10) 0) as [?|_]; [lia|].
  assert (∃ n, Z.to_nat (Z.log2 bytes / 10) = n ∧ (n < 5)%nat) as (n & -> & Hn).
  { eexists. split; [done|lia]. }
  destruct n as [|[|[|[|[|n]]]]]; simpl; try (eexists; split; [done|done]).
  lia.
Qed.

Example formatBytes_1536 : formatBytes exact_index 1536 = "1.5 KB".
Proof. reflexivity. Qed.

Example formatBytes_below_MB : formatBytes exact_index 1048575 = "1024 KB".
Proof. reflexivity. Qed.

(** Were the computed index to reach 5 for a count just below [1024^5]
    (the quotient of the two logarithms is then within one unit in the
    last place of 5), the unit would be read past the end of [sizes]. *)
Example formatBytes_index_5 :
  formatBytes (λ _, 5%Z) (1024 ^ 5 - 1) = "1 undefined".
Proof. reflexivity. Qed.

(** C9.  The claim fails for the largest byte count it covers,
    [1024^5 - 1 = 1125899906842623].  The floor of its base-1024
    logarithm is 4, so the claim asks for the count divided by [1024^4]
    and the unit TB, which is "1024 TB".  In double arithmetic the
    quotient [Math.log(1125899906842623) / Math.log(1024)] is 5, and with
    that index the function divides by [1024^5] and reads [sizes[5]],
    past the last unit: it returns "1 undefined". *)
Theorem formatBytes_below_1024_pow_5 log_index :
  log_index (1024 ^ 5 - 1)%Z = 5%Z →
  (0 < 1024 ^ 5 - 1 < 1024 ^ 5)%Z ∧
  exact_index (1024 ^ 5 - 1) = 4%Z ∧
  formatBytes exact_index (1024 ^ 5 - 1) = "1024 TB" ∧
  formatBytes log_index (1024 ^ 5 - 1) = "1 undefined" ∧
  unit_name (log_index (1024 ^ 5 - 1)%Z) ∉ sizes.
Proof.
  intros Hidx. split; [by split|]. split; [reflexivity|].
  split; [reflexivity|]. split.
  - unfold formatBytes. rewrite Hidx. reflexivity.
  - rewrite Hidx. by apply (bool_decide_unpack _).
Qed.

Lemma formatBytes_below_1024_pow_5_witness :
  (λ _ : Z, 5%Z) (1024 ^ 5 - 1)%Z = 5%Z ∧
  (0 < 1024 ^ 5 - 1 < 1024 ^ 5)%Z ∧
  exact_index (1024 ^ 5 - 1) = 4%Z ∧
  formatBytes exact_index (1024 ^ 5 - 1) = "1024 TB" ∧
  formatBytes (λ _, 5%Z) (1024 ^ 5 - 1) = "1 undefined" ∧
  unit_name ((λ _ : Z, 5%Z) (1024 ^ 5 - 1)%Z) ∉ sizes.
Proof.
  split; [reflexivity|].
  exact (formatBytes_below_1024_pow_5 (λ _, 5%Z) eq_refl).
Defined.

Lemma fields_declared :
  StorageStatistics_fields.*1 = (data_model_fields ++ ["last_updated"])%list.
Proof. reflexivity. Qed.

Lemma rendered_declared k' :
  k' ∈ rendered_fields → k' ∈ StorageStatistics_fields.*1.
Proof.
  unfold rendered_fields. intros H.
  repeat (apply elem_of_cons in H as [->|H]; [by apply (bool_decide_unpack _)|]).
  inversion H.
Qed.

Lemma to_object_conforms s : conforms (to_object s).
Proof.
  intros k' t H. unfold StorageStatistics_fields in H.
  repeat (apply elem_of_cons in H as [[= -> ->]|H];
          [eexists; split; [by unfold to_object; simplify_map_eq|done]|]).
  inversion H.
Qed.

Lemma dom_to_object s :
  dom (to_object s) =
  list_to_set (C := gset string) (data_model_fields ++ ["last_updated"])%list.
Proof.
  unfold to_object. rewrite !dom_insert_L, dom_empty_L. simpl. set_solver.
Qed.

(** C2, as amended.  The statistics object the widget consumes is a
    single object whose fields are the six numeric counters of the data
    model and, besides them, the string [last_updated], which the widget
    prints below the counters. *)
Theorem statistics_object_fields s :
  StorageStatistics_fields.*1 = (data_model_fields ++ ["last_updated"])%list ∧
  dom (to_object s) =
    list_to_set (C := gset string) (data_model_fields ++ ["last_updated"])%list ∧
  conforms (to_object s) ∧
  to_object s !! "total_files" = Some (VNumber (total_files s)) ∧
  to_object s !! "unique_files" = Some (VNumber (unique_files s)) ∧
  to_object s !! "duplicate_files" = Some (VNumber (duplicate_files s)) ∧
  to_object s !! "total_size" = Some (VNumber (total_size s)) ∧
  to_object s !! "actual_size" = Some (VNumber (actual_size s)) ∧
  to_object s !! "storage_saved" = Some (VNumber (storage_saved s)) ∧
  to_object s !! "last_updated" = Some (VString (last_updated s)) ∧
  "last_updated" ∈ rendered_fields.
Proof.
  split; [reflexivity|]. split; [apply dom_to_object|].
  split; [apply to_object_conforms|].
  unfold to_object. repeat split; try by simplify_map_eq.
  by apply (bool_decide_unpack _).
Qed.

(** C2, as stated, fails: the object has a seventh field, and an object
    with the six counters alone does not inhabit the interface. *)
Lemma statistics_object_not_six_fields :
  ¬ (∀ s, dom (to_object s) = list_to_set (C := gset string) data_model_fields) ∧
  ¬ conforms (delete "last_updated" (to_object example_stats)).
Proof.
  split.
  - intros H. specialize (H example_stats).
    assert ("last_updated" ∈ dom (to_object example_stats)) as Hin.
    { rewrite dom_to_object. by apply (bool_decide_unpack _). }
    rewrite H in Hin. revert Hin. by apply (bool_decide_unpack _).
  - intros H. destruct (H "last_updated" TString) as (v & Hv & _).
    + unfold StorageStatistics_fields. do 6 right. left.
    + by rewrite lookup_delete_eq in Hv.
Qed.

End StorageStatsFacts.

(** ** Sums and counts *)

Section MapSumFacts.

Context {K : Type} `{Countable K} {V : Type}.

Local Open Scope Z_scope.

Lemma msum_empty (g : V → Z) : msum g (∅ : gmap K V) = 0.
Proof. unfold msum. by rewrite map_fold_empty. Qed.

Lemma msum_insert_fresh g k v (m : gmap K V) :
  m !! k = None → msum g (<[k:=v]> m) = g v + msum g m.
Proof.
  intros Hk. unfold msum. rewrite map_fold_insert_L; [done| |done].
  intros. lia.
Qed.

Lemma msum_delete g k v (m : gmap K V) :
  m !! k = Some v → msum g (delete k m) = msum g m - g v.
Proof.
  intros Hk. unfold msum.
  rewrite (map_fold_delete_L _ _ k v m); [lia| |done].
  intros. lia.
Qed.

Lemma msum_insert_update g k v v' (m : gmap K V) :
  m !! k = Some v → msum g (<[k:=v']> m) = msum g m - g v + g v'.
Proof.
  intros Hk. rewrite <- insert_delete_eq.
  rewrite msum_insert_fresh by apply lookup_delete_eq.
  rewrite (msum_delete g k v) by done. lia.
Qed.

Lemma msum_le f g (m : gmap K V) :
  (∀ k v, m !! k = Some v → f v ≤ g v) → msum f m ≤ msum g m.
Proof.
  induction m as [|k v m Hk IH] using map_ind; intros Hfg.
  - by rewrite !msum_empty.
  - rewrite !msum_insert_fresh by done.
    assert (f v ≤ g v) by (apply (Hfg k); apply lookup_insert_eq).
    assert (msum f m ≤ msum g m).
    { apply IH. intros k' v' Hk'. apply (Hfg k').
      rewrite lookup_insert_ne; [done|]. intros ->. congruence. }
    lia.
Qed.

Lemma msum_ext f g (m : gmap K V) :
  (∀ k v, m !! k = Some v → f v = g v) → msum f m = msum g m.
Proof.
  intros Hfg. apply Z.le_antisymm; apply msum_le; intros k v Hk;
    rewrite (Hfg k v Hk); lia.
Qed.

Lemma msum_zero g (m : gmap K V) : (∀ k v, m !! k = Some v → g v = 0) → msum g m = 0.
Proof.
  intros Hg. rewrite (msum_ext g (λ _, 0)) by done. clear Hg.
  induction m as [|k v m Hk IH] using map_ind.
  - apply msum_empty.
  - rewrite msum_insert_fresh by done. lia.
Qed.

Lemma msum_size (m : gmap K V) : msum (λ _, 1) m = Z.of_nat (size m).
Proof.
  induction m as [|k v m Hk IH] using map_ind.
  - by rewrite msum_empty, map_size_empty.
  - rewrite msum_insert_fresh, map_size_insert_None by done. lia.
Qed.

Lemma msum_filter (P : V → Prop) `{∀ v, Decision (P v)} g (m : gmap K V) :
  msum g (filter (λ kv, P kv.2) m) = msum (λ v, indicator P v * g v) m.
Proof.
  induction m as [|k v m Hk IH] using map_ind.
  - by rewrite map_filter_empty, !msum_empty.
  - rewrite msum_insert_fresh by done. unfold indicator at 1.
    destruct (decide (P v)) as [HP|HP].
    + rewrite map_filter_insert_True by done.
      rewrite msum_insert_fresh; [lia|].
      rewrite map_lookup_filter_None. by left.
    + rewrite map_filter_insert_not'; [lia|done|]. intros y Hy. congruence.
Qed.

Lemma mcount_filter (P : V → Prop) `{∀ v, Decision (P v)} (m : gmap K V) :
  mcount P m = Z.of_nat (size (filter (λ kv, P kv.2) m)).
Proof.
  rewrite <- msum_size, msum_filter. unfold mcount.
  apply msum_ext. intros. lia.
Qed.

Lemma indicator_bounds (P : V → Prop) `{∀ v, Decision (P v)} v :
  0 ≤ indicator P v ≤ 1.
Proof. unfold indicator. case_decide; lia. Qed.

Lemma mcount_nonneg (P : V → Prop) `{∀ v, Decision (P v)} (m : gmap K V) : 0 ≤ mcount P m.
Proof. rewrite mcount_filter. lia. Qed.

Lemma mcount_pos_lookup (P : V → Prop) `{∀ v, Decision (P v)} k v (m : gmap K V) :
  m !! k = Some v → P v → 0 < mcount P m.
Proof.
  intros Hk HP. unfold mcount.
  rewrite <- (insert_delete_id m k v) by done.
  rewrite msum_insert_fresh by apply lookup_delete_eq.
  pose proof (mcount_nonneg P (delete k m)) as Hnn. unfold mcount in Hnn.
  unfold indicator at 1. rewrite decide_True by done. lia.
Qed.

Lemma mcount_zero (P : V → Prop) `{∀ v, Decision (P v)} (m : gmap K V) :
  (∀ k v, m !! k = Some v → ¬ P v) → mcount P m = 0.
Proof.
  intros HP. apply msum_zero. intros k v Hk.
  unfold indicator. rewrite decide_False; [done|]. by apply (HP k).
Qed.

End MapSumFacts.

Lemma msum_fmap {K} `{Countable K} {V W} (f : V → W) (g : W → Z) (m : gmap K V) :
  msum g (f <$> m) = msum (λ v, g (f v)) m.
Proof.
  induction m as [|k v m Hk IH] using map_ind.
  - by rewrite fmap_empty, !msum_empty.
  - rewrite fmap_insert.
    rewrite (msum_insert_fresh g k (f v) (f <$> m))
      by by rewrite lookup_fmap, Hk.
    rewrite (msum_insert_fresh (λ v, g (f v)) k v m) by done.
    by rewrite IH.
Qed.

(** ** The storage engine *)

Module EngineFacts.

Import Engine.

Local Open Scope nat_scope.

Section WithHash.

Variable hash : Content → Fingerprint.

Local Abbreviation upload := (Engine.upload hash).
Local Abbreviation step := (Engine.step hash).
Local Abbreviation reachable := (Engine.reachable hash).
Local Abbreviation inv_size := (Engine.inv_size hash).
Local Abbreviation tracked := (Engine.tracked hash).
Local Abbreviation upload_many := (Engine.upload_many hash).

Lemma mcount_insert_fresh {K V} `{Countable K} (P : V → Prop)
    `{∀ v, Decision (P v)} (k : K) v m :
  m !! k = None → mcount P (<[k:=v]> m) = (indicator P v + mcount P m)%Z.
Proof. apply msum_insert_fresh. Qed.

Lemma mcount_delete {K V} `{Countable K} (P : V → Prop)
    `{∀ v, Decision (P v)} (k : K) v m :
  m !! k = Some v → mcount P (delete k m) = (mcount P m - indicator P v)%Z.
Proof. apply msum_delete. Qed.

Lemma mcount_insert_update {K V} `{Countable K} (P : V → Prop)
    `{∀ v, Decision (P v)} (k : K) v v' m :
  m !! k = Some v →
  mcount P (<[k:=v']> m) = (mcount P m - indicator P v + indicator P v')%Z.
Proof. apply msum_insert_update. Qed.

Lemma writes_of_cons fp e h :
  writes_of fp (e :: h) =
  (if decide (e = PhysWrite fp) then 1 else 0) + writes_of fp h.
Proof. unfold writes_of. rewrite filter_cons. by case_decide. Qed.

Lemma deletions_of_cons fp e h :
  deletions_of fp (e :: h) =
  (if decide (e = PhysDelete fp) then 1 else 0) + deletions_of fp h.
Proof. unfold deletions_of. rewrite filter_cons. by case_decide. Qed.

Lemma inv_init : inv init.
Proof.
  constructor; simpl; done.
Qed.

Lemma inv_next_id_fresh st : inv st → files st !! next_id st = None.
Proof.
  intros Hinv. destruct (files st !! next_id st) as [f|] eqn:Hf; [|done].
  apply (inv_fresh _ Hinv) in Hf. lia.
Qed.

Lemma inv_unreferenced st fp :
  inv st → blobs st !! fp = None → mcount (references fp) (files st) = 0%Z.
Proof.
  intros Hinv Hb. apply mcount_zero. intros id f Hf Href.
  destruct (inv_link _ Hinv _ _ Hf) as [b Hb']. unfold references in Href.
  congruence.
Qed.

Lemma indicator_live b :
  indicator live b = if reference_count b is O then 0%Z else 1%Z.
Proof.
  unfold indicator. case_decide as Hl; unfold live in Hl;
    destruct (reference_count b); (done || lia).
Qed.

Lemma inv_upload disk meta s st : inv st → inv (upload disk meta s st).1.
Proof.
  intros Hinv. unfold upload, hasher.
  destruct s as [c|p]; simpl; [|done].
  pose proof (inv_next_id_fresh _ Hinv) as Hfresh.
  unfold put_or_link.
  destruct (blobs st !! hash c) as [b|] eqn:Hb; simpl;
    [|destruct disk; simpl; [|done|done]].
  - (* the Blob exists: one more reference *)
    constructor; simpl.
    + intros id f Hid. destruct (decide (id = next_id st)) as [->|Hne]; [lia|].
      rewrite lookup_insert_ne in Hid by done.
      apply (inv_fresh _ Hinv) in Hid. lia.
    + intros id f Hid. destruct (decide (id = next_id st)) as [->|Hne].
      * rewrite lookup_insert_eq in Hid. injection Hid as <-. simpl.
        rewrite lookup_insert_eq. by eexists.
      * rewrite lookup_insert_ne in Hid by done.
        destruct (inv_link _ Hinv _ _ Hid) as [b' Hb'].
        destruct (decide (fingerprint f = hash c)) as [->|Hnf].
        -- rewrite lookup_insert_eq. by eexists.
        -- rewrite lookup_insert_ne by done. by eexists.
    + intros fp b0. rewrite mcount_insert_fresh by done.
      unfold indicator at 1, references at 1. simpl.
      destruct (decide (hash c = fp)) as [<-|Hnf].
      * rewrite lookup_insert_eq. intros [= <-]. simpl.
        rewrite <- (inv_refcount _ Hinv _ _ Hb). lia.
      * rewrite lookup_insert_ne by done. intros Hb0.
        rewrite <- (inv_refcount _ Hinv _ _ Hb0). lia.
    + intros fp. rewrite (inv_physical _ Hinv).
      destruct (decide (fp = hash c)) as [->|Hnf].
      * rewrite lookup_insert_eq, Hb. done.
      * by rewrite lookup_insert_ne.
    + rewrite map_size_insert_None by done.
      rewrite (msum_insert_update _ _ b) by done. simpl.
      pose proof (inv_files_sum _ Hinv). lia.
    + intros fp. rewrite (inv_history _ Hinv).
      destruct (decide (fp = hash c)) as [->|Hnf].
      * by rewrite lookup_insert_eq, Hb.
      * by rewrite lookup_insert_ne.
    + rewrite map_size_insert_None by done.
      pose proof (inv_count_files _ Hinv). lia.
    + rewrite (mcount_insert_update _ _ b) by done.
      rewrite !indicator_live. simpl.
      pose proof (inv_count_unique _ Hinv).
      destruct (reference_count b); simpl; lia.
  - (* no Blob yet: it is created and written *)
    constructor; simpl.
    + intros id f Hid. destruct (decide (id = next_id st)) as [->|Hne]; [lia|].
      rewrite lookup_insert_ne in Hid by done.
      apply (inv_fresh _ Hinv) in Hid. lia.
    + intros id f Hid. destruct (decide (id = next_id st)) as [->|Hne].
      * rewrite lookup_insert_eq in Hid. injection Hid as <-. simpl.
        rewrite lookup_insert_eq. by eexists.
      * rewrite lookup_insert_ne in Hid by done.
        destruct (inv_link _ Hinv _ _ Hid) as [b' Hb'].
        rewrite lookup_insert_ne by congruence. by eexists.
    + intros fp b0. rewrite mcount_insert_fresh by done.
      unfold indicator at 1, references at 1. simpl.
      destruct (decide (hash c = fp)) as [<-|Hnf].
      * rewrite lookup_insert_eq. intros [= <-]. simpl.
        rewrite (inv_unreferenced _ _ Hinv Hb). lia.
      * rewrite lookup_insert_ne by done. intros Hb0.
        rewrite <- (inv_refcount _ Hinv _ _ Hb0). lia.
    + intros fp. destruct (decide (fp = hash c)) as [->|Hnf].
      * by rewrite !lookup_insert_eq.
      * rewrite !lookup_insert_ne by done. apply (inv_physical _ Hinv).
    + rewrite map_size_insert_None by done.
      rewrite msum_insert_fresh by done. simpl.
      pose proof (inv_files_sum _ Hinv). lia.
    + intros fp. rewrite writes_of_cons, deletions_of_cons.
      rewrite (inv_history _ Hinv).
      rewrite (decide_False (P := _ = PhysDelete fp)) by done.
      destruct (decide (fp = hash c)) as [->|Hnf].
      * rewrite lookup_insert_eq, Hb, decide_True by done. lia.
      * rewrite lookup_insert_ne by done.
        rewrite decide_False by congruence. lia.
    + rewrite map_size_insert_None by done.
      pose proof (inv_count_files _ Hinv). lia.
    + rewrite mcount_insert_fresh by done. rewrite indicator_live. simpl.
      pose proof (inv_count_unique _ Hinv). lia.
Qed.

Lemma inv_delete_file disk id st : inv st → inv (delete_file disk id st).1.
Proof.
  intros Hinv. unfold delete_file, index_delete.
  destruct (files st !! id) as [f|] eqn:Hf; simpl; [|done].
  destruct disk; simpl; [|done|done].
  unfold unlink. simpl.
  destruct (blobs st !! fingerprint f) as [b|] eqn:Hb; simpl; [|done].
  destruct (reference_count b) as [|n] eqn:Hrc; simpl; [done|].
  pose proof (inv_refcount _ Hinv _ _ Hb) as Hrefs. rewrite Hrc in Hrefs.
  constructor; simpl.
  - intros id' f' Hid. apply lookup_delete_Some in Hid as [_ Hid].
    by apply (inv_fresh _ Hinv) in Hid.
  - intros id' f' Hid. apply lookup_delete_Some in Hid as [_ Hid].
    destruct (inv_link _ Hinv _ _ Hid) as [b' Hb'].
    destruct (decide (fingerprint f' = fingerprint f)) as [->|Hnf].
    + rewrite lookup_insert_eq. by eexists.
    + rewrite lookup_insert_ne by done. by eexists.
  - intros fp b0. rewrite (mcount_delete _ _ f) by done.
    unfold indicator at 1, references at 2.
    destruct (decide (fingerprint f = fp)) as [<-|Hnf].
    + rewrite lookup_insert_eq. intros [= <-]. simpl. lia.
    + rewrite lookup_insert_ne by done. intros Hb0.
      rewrite <- (inv_refcount _ Hinv _ _ Hb0). lia.
  - intros fp. rewrite (inv_physical _ Hinv).
    destruct (decide (fp = fingerprint f)) as [->|Hnf].
    + by rewrite lookup_insert_eq, Hb.
    + by rewrite lookup_insert_ne.
  - rewrite <- msum_size, (msum_delete _ _ f), msum_size by done.
    rewrite (msum_insert_update _ _ b) by done. simpl.
    pose proof (inv_files_sum _ Hinv). lia.
  - intros fp. rewrite (inv_history _ Hinv).
    destruct (decide (fp = fingerprint f)) as [->|Hnf].
    + by rewrite lookup_insert_eq, Hb.
    + by rewrite lookup_insert_ne.
  - rewrite <- msum_size, (msum_delete _ _ f), msum_size by done.
    pose proof (inv_count_files _ Hinv). lia.
  - rewrite (mcount_insert_update _ _ b) by done.
    rewrite !indicator_live, Hrc. simpl.
    pose proof (inv_count_unique _ Hinv).
    destruct n; simpl; lia.
Qed.

Lemma inv_reclaim disk fp st : inv st → inv (reclaim disk fp st).
Proof.
  intros Hinv. unfold reclaim.
  destruct (blobs st !! fp) as [b|] eqn:Hb; [|done].
  destruct (reference_count b) as [|n] eqn:Hrc; [|done].
  destruct disk; [|done|done].
  pose proof (inv_refcount _ Hinv _ _ Hb) as Hrefs. rewrite Hrc in Hrefs.
  constructor; simpl.
  - apply (inv_fresh _ Hinv).
  - intros id f Hid. destruct (inv_link _ Hinv _ _ Hid) as [b' Hb'].
    rewrite lookup_delete_ne; [by eexists|]. intros ->.
    pose proof (mcount_pos_lookup (references (fingerprint f)) _ _ _ Hid eq_refl).
    lia.
  - intros fp' b0 Hb0. apply lookup_delete_Some in Hb0 as [_ Hb0].
    by apply (inv_refcount _ Hinv).
  - intros fp'. destruct (decide (fp' = fp)) as [->|Hnf].
    + by rewrite !lookup_delete_eq.
    + rewrite !lookup_delete_ne by done. apply (inv_physical _ Hinv).
  - rewrite (msum_delete _ _ b) by done. rewrite Hrc.
    pose proof (inv_files_sum _ Hinv). lia.
  - intros fp'. rewrite writes_of_cons, deletions_of_cons.
    rewrite (inv_history _ Hinv).
    rewrite (decide_False (P := _ = PhysWrite fp')) by done.
    destruct (decide (fp' = fp)) as [->|Hnf].
    + rewrite lookup_delete_eq, Hb, decide_True by done. lia.
    + rewrite lookup_delete_ne by done.
      rewrite decide_False by congruence. lia.
  - apply (inv_count_files _ Hinv).
  - rewrite (mcount_delete _ _ b) by done. rewrite indicator_live, Hrc.
    pose proof (inv_count_unique _ Hinv). lia.
Qed.

Lemma inv_step op st : inv st → inv (step op st).
Proof.
  destruct op; simpl; auto using inv_upload, inv_delete_file, inv_reclaim.
Qed.

Lemma reachable_inv st : reachable st → inv st.
Proof. induction 1; auto using inv_init, inv_step. Qed.

(** *** Counts *)

Lemma live_count_le_files st :
  inv st → (mcount live (blobs st) ≤ Z.of_nat (size (files st)))%Z.
Proof.
  intros Hinv. rewrite (inv_files_sum _ Hinv). apply msum_le.
  intros fp b _. rewrite indicator_live. destruct (reference_count b); lia.
Qed.

(** Between whole transactions, in the snapshot of either aggregation
    strategy, [duplicate_files] is [total_files - unique_files], and
    [unique_files], the number of Blobs with a positive reference count,
    does not exceed [total_files], the number of FileEntry records. *)
Lemma snapshot_counts_consistent st s :
  reachable st → publishes st s →
  (duplicate_files s = total_files s - unique_files s ∧
   unique_files s ≤ total_files s ∧
   total_files s = Z.of_nat (size (files st)) ∧
   unique_files s = Z.of_nat (size (filter (λ kv, live kv.2) (blobs st))))%Z.
Proof.
  intros Hst Hs. pose proof (reachable_inv _ Hst) as Hinv.
  pose proof (live_count_le_files _ Hinv) as Hle.
  rewrite mcount_filter in Hle.
  destruct Hs as [-> | ->]; simpl.
  - repeat split; done.
  - rewrite (inv_count_files _ Hinv), (inv_count_unique _ Hinv), mcount_filter.
    repeat split; done.
Qed.

(** *** Lookup *)

(** C7. [lookup] returns the size and reference count of a fingerprint's
    Blob exactly when the Blob exists and its count is positive; in every
    other case, and in particular for a Blob whose count is 0, it returns
    nothing. *)
Theorem lookup_live_only fp st :
  (∀ m, lookup fp st = Some m ↔
        ∃ b, blobs st !! fp = Some b ∧ 0 < reference_count b ∧
             m = mkBlobMeta (blob_size b) (reference_count b)) ∧
  (lookup fp st = None ↔
        ∀ b, blobs st !! fp = Some b → reference_count b = 0).
Proof.
  unfold lookup. destruct (blobs st !! fp) as [b|] eqn:Hb.
  - destruct (decide (live b)) as [Hl|Hl]; unfold live in Hl.
    + split.
      * intros m. split.
        -- intros [= <-]. by exists b.
        -- intros (b' & [= <-] & _ & ->). done.
      * split; [done|]. intros H. specialize (H b eq_refl). lia.
    + split.
      * intros m. split; [done|]. intros (b' & [= <-] & Hpos & _). lia.
      * split; [|done]. intros _ b' [= <-]. lia.
  - split.
    + intros m. split; [done|]. intros (b' & H & _). done.
    + split; [|done]. intros _ b' H. done.
Qed.

(** *** Errors *)

Lemma put_or_link_error disk fp c n st st' e :
  put_or_link disk fp c n st = (st', Err e) →
  st' = st ∧ blobs st !! fp = None ∧
  ((disk = DiskError ∧ e = IOFailure) ∨ (disk = DiskFull ∧ e = CapacityExceeded)).
Proof.
  unfold put_or_link. destruct (blobs st !! fp) as [b|]; [done|].
  destruct disk; intros [= <- <-]; auto.
Qed.

Lemma put_or_link_ok disk fp c n st st' ref :
  put_or_link disk fp c n st = (st', Ok ref) →
  ref_fingerprint ref = fp ∧
  ∃ b, blobs st' !! fp = Some b ∧ 0 < reference_count b ∧
       reference_count b = S (refcount_of fp st) ∧
       files st' = files st ∧ next_id st' = next_id st.
Proof.
  unfold put_or_link, refcount_of. destruct (blobs st !! fp) as [b|] eqn:Hb.
  - intros [= <- <-]. simpl. split; [done|].
    eexists. rewrite lookup_insert_eq. split; [done|]. simpl.
    repeat split; lia.
  - destruct disk; intros [= <- <-]. simpl. split; [done|].
    eexists. rewrite lookup_insert_eq. split; [done|]. simpl.
    repeat split; lia.
Qed.

Lemma upload_error disk meta s st st' e :
  upload disk meta s st = (st', Err e) → st' = st.
Proof.
  unfold Engine.upload, hasher. destruct s as [c|p]; simpl; [|by intros [= <-]].
  destruct (put_or_link disk (hash c) c (String.length c) st)
    as [st1 [ref|e1]] eqn:Hput; simpl; [done|].
  intros [= <- <-]. by apply put_or_link_error in Hput as [-> _].
Qed.

Lemma delete_file_error disk id st st' e :
  delete_file disk id st = (st', Err e) → st' = st.
Proof.
  unfold delete_file.
  destruct (index_delete id st) as [st1 [f|e1]]; [|by intros [= <-]].
  destruct disk; [|by intros [= <-]..].
  destruct (unlink (fingerprint f) st1) as [st2 [d|e2]]; [done|].
  by intros [= <-].
Qed.

Lemma delete_endpoint_error disk rdisk id st st' e :
  delete_endpoint disk rdisk id st = (st', Err e) → st' = st.
Proof.
  unfold delete_endpoint.
  destruct (delete_file disk id st) as [st1 [[|fp sz]|e1]] eqn:Hd; [done..|].
  intros [= <- <-]. by apply delete_file_error in Hd.
Qed.

(** A FileEntry keeps its Blob referenced. *)
Lemma reachable_entry_blob st id f :
  reachable st → files st !! id = Some f →
  ∃ b, blobs st !! fingerprint f = Some b ∧ 0 < reference_count b.
Proof.
  intros Hst Hf. pose proof (reachable_inv _ Hst) as Hinv.
  destruct (inv_link _ Hinv id f Hf) as [b Hb]. exists b. split; [done|].
  pose proof (inv_refcount _ Hinv _ b Hb) as Hrc.
  pose proof (mcount_pos_lookup (references (fingerprint f)) id f (files st) Hf eq_refl).
  lia.
Qed.

(** *** Reference counting *)

Lemma reachable_upload disk meta s st :
  reachable st → reachable (upload disk meta s st).1.
Proof. intros Hst. apply (reach_step hash (OpUpload disk meta s) _ Hst). Qed.

Lemma reachable_delete_endpoint disk rdisk id st :
  reachable st → reachable (delete_endpoint disk rdisk id st).1.
Proof.
  intros Hst. unfold delete_endpoint.
  pose proof (reach_step hash (OpDelete disk id) _ Hst) as Hd. simpl in Hd.
  destruct (delete_file disk id st) as [st1 [[|fp sz]|e]]; simpl in *; try done.
  apply (reach_step hash (OpReclaim rdisk fp) _ Hd).
Qed.

Lemma upload_complete_ok meta c st :
  ∃ st',
    upload DiskOk meta (Complete c) st = (st', Ok (next_id st)) ∧
    files st' =
      <[next_id st := mkFileEntry meta (String.length c) (hash c)]> (files st) ∧
    (∃ b, blobs st' !! hash c = Some b ∧ 0 < reference_count b).
Proof.
  unfold Engine.upload, hasher, put_or_link. simpl.
  destruct (blobs st !! hash c) as [b|] eqn:Hb; simpl.
  - eexists. split; [done|]. simpl. split; [done|].
    eexists. rewrite lookup_insert_eq. split; [done|]. simpl. lia.
  - eexists. split; [done|]. simpl. split; [done|].
    eexists. rewrite lookup_insert_eq. split; [done|]. simpl. lia.
Qed.

Lemma delete_endpoint_ok id f st :
  inv st → files st !! id = Some f →
  ∃ st' d,
    delete_endpoint DiskOk DiskOk id st = (st', Ok d) ∧
    files st' = delete id (files st) ∧
    (∀ b, blobs st' !! fingerprint f = Some b → 0 < reference_count b).
Proof.
  intros Hinv Hf.
  destruct (inv_link _ Hinv _ _ Hf) as [b Hb].
  pose proof (inv_refcount _ Hinv _ _ Hb) as Hrc.
  pose proof (mcount_pos_lookup (references (fingerprint f)) _ _ _ Hf eq_refl).
  unfold delete_endpoint, delete_file, index_delete, unlink. rewrite Hf. simpl.
  rewrite Hb. destruct (reference_count b) as [|n] eqn:Hn; [lia|]. simpl.
  destruct n as [|n]; simpl.
  - unfold reclaim. simpl. rewrite lookup_insert_eq. simpl.
    eexists _, _. split; [done|]. simpl. split; [done|].
    intros b'. by rewrite lookup_delete_eq.
  - eexists _, _. split; [done|]. simpl. split; [done|].
    intros b'. rewrite lookup_insert_eq. intros [= <-]. simpl. lia.
Qed.

Lemma tracked_upload_many c metas : ∀ st ids0 n st1 ids,
  tracked (hash c) ids0 n st →
  upload_many metas c st = (st1, ids) →
  length ids = length metas ∧
  tracked (hash c) (ids ++ ids0) (n + Z.of_nat (length metas)) st1.
Proof.
  induction metas as [|meta metas IH]; intros st ids0 n st1 ids Ht; simpl.
  - intros [= <- <-]. simpl. split; [done|]. by rewrite Z.add_0_r.
  - destruct (upload_complete_ok meta c st) as (st' & Hup & Hfiles & b & Hb & Hpos).
    rewrite Hup.
    destruct (upload_many metas c st') as [st2 ids'] eqn:Hmany.
    intros [= <- <-].
    pose proof (reachable_inv _ (tracked_reachable _ _ _ _ _ Ht)) as Hinv.
    pose proof (inv_next_id_fresh _ Hinv) as Hfresh.
    assert (tracked (hash c) (next_id st :: ids0) (n + 1) st') as Ht'.
    { constructor.
      - pose proof (reachable_upload DiskOk meta (Complete c) st
                      (tracked_reachable _ _ _ _ _ Ht)) as Hr.
        by rewrite Hup in Hr.
      - rewrite Hfiles, mcount_insert_fresh by done.
        unfold indicator, references at 1. simpl. rewrite decide_True by done.
        rewrite (tracked_count _ _ _ _ _ Ht). lia.
      - intros id Hid. rewrite Hfiles. apply elem_of_cons in Hid as [->|Hid].
        + rewrite lookup_insert_eq. by eexists.
        + destruct (tracked_ids _ _ _ _ _ Ht id Hid) as (f & Hf & Hfp).
          rewrite lookup_insert_ne by congruence. by exists f.
      - intros b'. rewrite Hb. by intros [= <-]. }
    destruct (IH _ _ _ _ _ Ht' Hmany) as [Hlen Ht2].
    split; [simpl; by rewrite Hlen|].
    destruct Ht2 as [Hr2 Hc2 Hi2 Hs2]. constructor; try done.
    + rewrite Hc2. lia.
    + intros id Hid. apply Hi2. set_solver.
Qed.

Lemma tracked_delete_many fp : ∀ ds st ids n,
  tracked fp ids n st → NoDup ds → ds ⊆ ids →
  tracked fp [] (n - Z.of_nat (length ds)) (delete_many ds st).
Proof.
  induction ds as [|id ds IH]; intros st ids n Ht Hnd Hsub; simpl.
  - destruct Ht as [Hr Hc Hi Hs]. constructor; try done; [lia|].
    intros id Hid. inversion Hid.
  - apply NoDup_cons in Hnd as [Hnotin Hnd].
    destruct (tracked_ids _ _ _ _ _ Ht id) as (f & Hf & Hfp); [set_solver|].
    pose proof (reachable_inv _ (tracked_reachable _ _ _ _ _ Ht)) as Hinv.
    destruct (delete_endpoint_ok id f st Hinv Hf) as (st' & d & Hdel & Hfiles & Hset).
    rewrite Hdel. simpl.
    assert (tracked fp ds (n - 1) st') as Ht'.
    { constructor.
      - pose proof (reachable_delete_endpoint DiskOk DiskOk id st
                      (tracked_reachable _ _ _ _ _ Ht)) as Hr.
        by rewrite Hdel in Hr.
      - rewrite Hfiles, (mcount_delete _ _ f) by done.
        unfold indicator, references at 2. rewrite decide_True by done.
        rewrite (tracked_count _ _ _ _ _ Ht). lia.
      - intros id' Hid'. rewrite Hfiles.
        destruct (tracked_ids _ _ _ _ _ Ht id') as (f' & Hf' & Hfp'); [set_solver|].
        exists f'. split; [|done]. rewrite lookup_delete_ne; [done|].
        intros ->. done.
      - rewrite <- Hfp. apply Hset. }
    specialize (IH st' ds (n - 1)%Z Ht' Hnd ltac:(done)).
    destruct IH as [Hr2 Hc2 Hi2 Hs2]. constructor; try done.
    rewrite Hc2. lia.
Qed.

(** C4. After [N] uploads of one content that had no Blob, followed by
    the deletion of [M] of the files those uploads created, the Blob's
    reference count is [N - M], and the Blob is absent, from the Blob
    Store and from physical storage, exactly when [N - M] is 0. *)
Theorem refcount_after_uploads_and_deletes c metas ds st0 st1 ids :
  reachable st0 → blobs st0 !! hash c = None →
  upload_many metas c st0 = (st1, ids) →
  NoDup ds → ds ⊆ ids →
  length ids = length metas ∧
  (length ds ≤ length metas)%nat ∧
  refcount_of (hash c) (delete_many ds st1) = (length metas - length ds)%nat ∧
  (physical (delete_many ds st1) !! hash c = None ↔
     (length metas - length ds)%nat = 0%nat) ∧
  (blobs (delete_many ds st1) !! hash c = None ↔
     (length metas - length ds)%nat = 0%nat).
Proof.
  intros Hst Hb Hup Hnd Hsub.
  pose proof (reachable_inv _ Hst) as Hinv.
  assert (tracked (hash c) [] 0 st0) as Ht0.
  { constructor; try done.
    - by apply inv_unreferenced.
    - intros id Hid. inversion Hid.
    - intros b. by rewrite Hb. }
  destruct (tracked_upload_many c metas _ _ _ _ _ Ht0 Hup) as [Hlen Ht1].
  rewrite app_nil_r in Ht1.
  pose proof (tracked_delete_many _ ds _ _ _ Ht1 Hnd Hsub) as [Hr2 Hc2 _ Hs2].
  set (st2 := delete_many ds st1) in *.
  pose proof (reachable_inv _ Hr2) as Hinv2.
  pose proof (mcount_nonneg (references (hash c)) (files st2)) as Hnn.
  split; [done|]. split; [lia|].
  rewrite (inv_physical _ Hinv2). unfold refcount_of.
  destruct (blobs st2 !! hash c) as [b|] eqn:Hb2.
  - pose proof (inv_refcount _ Hinv2 _ _ Hb2) as Hrc.
    specialize (Hs2 b eq_refl).
    split; [lia|]. split; (split; [done|lia]).
  - pose proof (inv_unreferenced _ _ Hinv2 Hb2) as H0.
    split; [lia|]. split; (split; [lia|done]).
Qed.

(** *** Requests in flight *)

Local Abbreviation act := (Engine.act hash).
Local Abbreviation sched_step := (Engine.sched_step hash).
Local Abbreviation interleave := (Engine.interleave hash).
Local Abbreviation holds_ref := (Engine.holds_ref hash).
Local Abbreviation inside := (Engine.inside hash).
Local Abbreviation creating := (Engine.creating hash).
Local Abbreviation written := (Engine.written hash).
Local Abbreviation settled := (Engine.settled hash).
Local Abbreviation in_use := (Engine.in_use hash).
Local Abbreviation rescan := (Engine.rescan hash).
Local Abbreviation linearized := (Engine.linearized hash).
Local Abbreviation uploading := (Engine.uploading hash).
Local Abbreviation publishes_during := (Engine.publishes_during hash).
Local Abbreviation committed := (Engine.committed hash).
Local Abbreviation run_ops := (Engine.run_ops hash).
Local Abbreviation linearization := (Engine.linearization hash).

Lemma filter_length_insert {A} (P : A → Prop) `{∀ x, Decision (P x)} (l : list A) :
  ∀ i t t',
    l !! i = Some t →
    length (filter P (<[i:=t']> l)) + (if decide (P t) then 1 else 0) =
    length (filter P l) + (if decide (P t') then 1 else 0).
Proof.
  induction l as [|x l IH]; intros [|i] t t' Hi; simpl in *; try done.
  - injection Hi as ->. rewrite !filter_cons.
    repeat case_decide; simpl; lia.
  - rewrite !filter_cons. specialize (IH i t t' Hi).
    destruct (decide (P x)); simpl; lia.
Qed.

Lemma tagged_insert tag fp pool i t t' :
  pool !! i = Some t →
  tagged tag fp (<[i:=t']> pool) + (if decide (tag t = Some fp) then 1 else 0) =
  tagged tag fp pool + (if decide (tag t' = Some fp) then 1 else 0).
Proof.
  intros Hi. unfold tagged.
  exact (filter_length_insert (λ t, tag t = Some fp) pool i t t' Hi).
Qed.

Lemma tagged_pos tag fp pool i t :
  pool !! i = Some t → tag t = Some fp → 1 ≤ tagged tag fp pool.
Proof.
  intros Hi Ht. unfold tagged.
  assert (t ∈ filter (λ t, tag t = Some fp) pool) as Hin.
  { apply list_elem_of_filter. split; [done|]. by eapply list_elem_of_lookup_2. }
  destruct (filter _ pool); [inversion Hin|simpl; lia].
Qed.

Lemma tagged_le tag1 tag2 fp pool :
  (∀ t, tag1 t = Some fp → tag2 t = Some fp) →
  tagged tag1 fp pool ≤ tagged tag2 fp pool.
Proof.
  intros Himp. unfold tagged. induction pool as [|t pool IH]; [done|].
  rewrite !filter_cons. destruct (decide (tag1 t = Some fp)) as [H1|H1].
  - rewrite decide_True by auto. simpl. lia.
  - case_decide; simpl; lia.
Qed.

Lemma tagged_none tag fp pool :
  Forall (λ t, tag t = None) pool → tagged tag fp pool = 0.
Proof.
  unfold tagged. induction 1 as [|t pool Ht _ IH]; [done|].
  rewrite filter_cons, decide_False by congruence. done.
Qed.

Lemma tagged_waiting tag fp ops :
  (∀ op, tag (Waiting op) = None) → tagged tag fp (Waiting <$> ops) = 0.
Proof.
  intros Htag. apply tagged_none. apply Forall_fmap, Forall_forall.
  intros op _. apply Htag.
Qed.

(** What a successful upload, a successful logical delete and a run of
    the Reclaimer on an unreferenced Blob do to the File Index, the
    reference counts and the counters. *)
Lemma upload_shape meta c st :
  let st' := (upload DiskOk meta (Complete c) st).1 in
  files st' =
    <[next_id st := mkFileEntry meta (String.length c) (hash c)]> (files st) ∧
  next_id st' = S (next_id st) ∧
  (∀ fp, refcount_of fp st' =
         refcount_of fp st + (if decide (fp = hash c) then 1 else 0)) ∧
  (∀ fp, is_Some (blobs st' !! fp) ↔ fp = hash c ∨ is_Some (blobs st !! fp)) ∧
  counters st' =
    count_upload (String.length c)
      (mkBlobRef (hash c)
         (match blobs st !! hash c with
          | Some b => blob_size b
          | None => String.length c
          end)
         (S (refcount_of (hash c) st)))
      (counters st).
Proof.
  unfold Engine.upload, hasher, put_or_link, refcount_of. simpl.
  destruct (blobs st !! hash c) as [b|] eqn:Hb; simpl.
  all: split; [done|]; split; [done|]; split; [|split; [|done]]; intros fp.
  all: destruct (decide (fp = hash c)) as [->|Hne];
    [rewrite lookup_insert_eq|rewrite lookup_insert_ne by done].
  all: rewrite ?Hb; simpl; try lia; try (destruct (blobs st !! fp); lia).
  all: unfold is_Some; naive_solver.
Qed.

Lemma delete_file_shape id f st :
  reachable st → files st !! id = Some f →
  let st' := (delete_file DiskOk id st).1 in
  ∃ b, blobs st !! fingerprint f = Some b ∧
       files st' = delete id (files st) ∧
       next_id st' = next_id st ∧
       (∀ fp, refcount_of fp st =
              refcount_of fp st' + (if decide (fp = fingerprint f) then 1 else 0)) ∧
       (∀ fp, is_Some (blobs st' !! fp) ↔ is_Some (blobs st !! fp)) ∧
       counters st' =
         count_delete f
           (match refcount_of (fingerprint f) st' with
            | O => Reclaim (fingerprint f) (blob_size b)
            | S _ => Retain
            end)
           (counters st).
Proof.
  intros Hst Hf. destruct (reachable_entry_blob st id f Hst Hf) as (b & Hb & Hpos).
  destruct (reference_count b) as [|m] eqn:Hrc; [lia|]. exists b.
  unfold delete_file, index_delete, unlink, refcount_of. rewrite Hf. simpl.
  rewrite Hb, Hrc. simpl. rewrite lookup_insert_eq. simpl.
  split; [done|]. split; [done|]. split; [done|]. split; [|split; [|done]].
  - intros fp. destruct (decide (fp = fingerprint f)) as [->|Hne].
    + rewrite lookup_insert_eq, Hb. simpl. lia.
    + rewrite lookup_insert_ne by done. destruct (blobs st !! fp); lia.
  - intros fp. destruct (decide (fp = fingerprint f)) as [->|Hne].
    + rewrite lookup_insert_eq, Hb. unfold is_Some. naive_solver.
    + by rewrite lookup_insert_ne.
Qed.

Lemma reclaim_shape fp st :
  refcount_of fp st = 0 →
  let st' := reclaim DiskOk fp st in
  files st' = files st ∧ next_id st' = next_id st ∧ counters st' = counters st ∧
  (∀ fp', refcount_of fp' st' = refcount_of fp' st) ∧
  (∀ fp', is_Some (blobs st' !! fp') ↔ fp' ≠ fp ∧ is_Some (blobs st !! fp')).
Proof.
  unfold reclaim, refcount_of. destruct (blobs st !! fp) as [b|] eqn:Hb.
  - intros Hrc. rewrite Hrc. simpl. split; [done|]. split; [done|]. split; [done|].
    split; intros fp'; destruct (decide (fp' = fp)) as [->|Hne].
    + by rewrite lookup_delete_eq, Hb, Hrc.
    + by rewrite lookup_delete_ne.
    + rewrite lookup_delete_eq. unfold is_Some. naive_solver.
    + rewrite lookup_delete_ne by done. naive_solver.
  - intros _. simpl. split; [done|]. split; [done|]. split; [done|].
    split; [done|]. intros fp'. destruct (decide (fp' = fp)) as [->|Hne].
    + rewrite Hb. unfold is_Some. naive_solver.
    + naive_solver.
Qed.

(** Requests that have not started leave the engine as whole
    transactions left it. *)
Lemma linearized_start st0 ops :
  reachable st0 → linearized (start st0 ops) st0.
Proof.
  intros Hst. pose proof (reachable_inv _ Hst) as Hinv.
  split; simpl; try done.
  - intros fp. rewrite tagged_waiting by done. lia.
  - intros fp. rewrite tagged_waiting by done.
    rewrite decide_False by set_solver. done.
  - intros fp _. by rewrite tagged_waiting.
  - intros fp. rewrite tagged_waiting by done.
    rewrite (inv_history _ Hinv fp). lia.
  - apply Forall_fmap, Forall_forall. by intros op _.
Qed.

Lemma refcount_mcount st fp :
  inv st → Z.of_nat (refcount_of fp st) = mcount (references fp) (files st).
Proof.
  intros Hinv. unfold refcount_of. destruct (blobs st !! fp) as [b|] eqn:Hb.
  - by apply (inv_refcount _ Hinv).
  - by rewrite inv_unreferenced.
Qed.

Lemma refcount_pos fp st :
  0 < refcount_of fp st →
  ∃ b, blobs st !! fp = Some b ∧ 0 < reference_count b.
Proof.
  unfold refcount_of. destruct (blobs st !! fp) as [b|]; [|lia]. by exists b.
Qed.

Lemma delete_file_unchanged disk id st :
  disk ≠ DiskOk ∨ files st !! id = None → (delete_file disk id st).1 = st.
Proof.
  unfold delete_file, index_delete.
  destruct (files st !! id); destruct disk; simpl; naive_solver.
Qed.

Lemma reclaim_unchanged disk fp st :
  disk ≠ DiskOk ∨ blobs st !! fp = None ∨ 0 < refcount_of fp st →
  reclaim disk fp st = st.
Proof.
  unfold reclaim, refcount_of. destruct (blobs st !! fp) as [b|]; [|done].
  destruct (reference_count b); [|done]. destruct disk; [|done..].
  intros [?|[?|?]]; [done|done|lia].
Qed.

Local Ltac tag_insert Hi :=
  repeat match goal with
  | |- context [tagged ?tag ?fp (<[?i:=?t']> ?pool)] =>
      let Ht := fresh "Htag" in
      let n := fresh "n" in
      pose proof (tagged_insert tag fp pool i _ t' Hi) as Ht;
      cbn [Engine.holds_ref Engine.inside Engine.creating Engine.written] in Ht;
      set (n := tagged tag fp (<[i:=t']> pool)) in *; clearbody n
  end.

Local Ltac tag_done :=
  repeat case_decide; simplify_eq; try lia; try set_solver.

(** Every action of every request keeps the engine linearized. *)
Lemma linearized_step cfg L i :
  linearized cfg L →
  linearized (sched_step cfg i) (run_ops (commit_step cfg i) L).
Proof.
  destruct cfg as [st lk pool]. intros HL.
  unfold Engine.sched_step, Engine.commit_step. simpl.
  destruct (pool !! i) as [t|] eqn:Hi; [|done].
  pose proof HL as [Hreach Hfiles Hnext Hcf Hcu Hrc Hpres Hhold Hcre Hhist Hlink].
  simpl in *. pose proof (reachable_inv _ Hreach) as HinvL.
  assert (∀ fp, tagged creating fp pool ≤ tagged inside fp pool) as Hci.
  { intros fp. apply tagged_le. by intros [| | | | | |]. }
  destruct t as [[disk meta s|disk id|disk fp0]|disk meta c|disk meta c|meta c
                 |meta c ref|f|o]; simpl.
  - (* an upload enters the critical section *)
    destruct s as [c|p]; simpl.
    + destruct (decide (hash c ∈ lk)) as [Hin|Hout].
      { rewrite list_insert_id by done. rewrite ?decide_True by done. done. }
      split; simpl; try done.
      * intros fp. specialize (Hrc fp). tag_insert Hi. tag_done.
      * intros fp. specialize (Hhold fp). tag_insert Hi. tag_done.
      * intros fp Hs. specialize (Hcre fp Hs). tag_insert Hi. tag_done.
      * intros fp. specialize (Hhist fp). tag_insert Hi. tag_done.
      * by apply Forall_insert.
    + split; simpl; try done.
      * intros fp. specialize (Hrc fp). tag_insert Hi. tag_done.
      * intros fp. specialize (Hhold fp). tag_insert Hi. tag_done.
      * intros fp Hs. specialize (Hcre fp Hs). tag_insert Hi. tag_done.
      * intros fp. specialize (Hhist fp). tag_insert Hi. tag_done.
      * by apply Forall_insert.
  - (* a delete removes the FileEntry *)
    assert (∀ o, linearized (mkConfig st lk (<[i:=Finished o]> pool)) L) as Hsame.
    { intros o. split; simpl; try done.
      - intros fp. specialize (Hrc fp). tag_insert Hi. tag_done.
      - intros fp. specialize (Hhold fp). tag_insert Hi. tag_done.
      - intros fp Hs. specialize (Hcre fp Hs). tag_insert Hi. tag_done.
      - intros fp. specialize (Hhist fp). tag_insert Hi. tag_done.
      - by apply Forall_insert. }
    unfold index_delete. destruct (files st !! id) as [f|] eqn:Hf;
      [|rewrite delete_file_unchanged by (right; by rewrite Hfiles);
        apply Hsame].
    destruct disk; simpl;
      [|rewrite delete_file_unchanged by (by left); apply Hsame..].
    assert (files L !! id = Some f) as HfL by by rewrite Hfiles.
    destruct (delete_file_shape id f L Hreach HfL)
      as (b & Hb & Hf' & Hn' & Hrc' & Hpres' & Hcnt').
    assert (reachable (delete_file DiskOk id L).1) as Hreach'.
    { exact (reach_step hash (OpDelete DiskOk id) _ Hreach). }
    split; simpl.
    + exact Hreach'.
    + by rewrite Hf', Hfiles.
    + by rewrite Hn', Hnext.
    + rewrite Hcnt'. simpl. lia.
    + rewrite Hcnt'. simpl. rewrite <- Hfiles, <- Hf'.
      pose proof (refcount_mcount _ (fingerprint f) (reachable_inv _ Hreach'))
        as Hm.
      destruct (refcount_of (fingerprint f) (delete_file DiskOk id L).1)
        as [|m] eqn:Hr.
      * rewrite bool_decide_true by lia. lia.
      * rewrite bool_decide_false by lia. lia.
    + intros fp. specialize (Hrc fp). specialize (Hrc' fp).
      change (refcount_of fp _) with (refcount_of fp st) at 1.
      tag_insert Hi. tag_done.
    + intros fp Hs. apply Hpres' in Hs. by apply Hpres.
    + intros fp. specialize (Hhold fp). tag_insert Hi. tag_done.
    + intros fp Hs. specialize (Hcre fp Hs). tag_insert Hi. tag_done.
    + intros fp. specialize (Hhist fp). tag_insert Hi. tag_done.
    + by apply Forall_insert.
  - (* the Reclaimer *)
    destruct (decide (fp0 ∈ lk)) as [Hin|Hout].
    { rewrite list_insert_id by done. done. }
    assert (linearized (mkConfig st lk (<[i:=Finished Reclaimed]> pool)) L)
      as Hsame.
    { split; simpl; try done.
      - intros fp. specialize (Hrc fp). tag_insert Hi. tag_done.
      - intros fp. specialize (Hhold fp). tag_insert Hi. tag_done.
      - intros fp Hs. specialize (Hcre fp Hs). tag_insert Hi. tag_done.
      - intros fp. specialize (Hhist fp). tag_insert Hi. tag_done.
      - by apply Forall_insert. }
    destruct (decide (refcount_of fp0 st = 0)) as [Hr0|Hr0]; simpl;
      [|by rewrite reclaim_unchanged by (right; right; lia)].
    assert (refcount_of fp0 L = 0) as HrL by (specialize (Hrc fp0); lia).
    destruct (blobs st !! fp0) as [b|] eqn:Hb; cycle 1.
    { rewrite !reclaim_unchanged; [done|right; left..]; [|done].
      destruct (blobs L !! fp0) as [bL|] eqn:HbL; [|done].
      destruct (Hpres fp0) as [? ?]; [by rewrite HbL|congruence]. }
    assert (reference_count b = 0) as Hrcb.
    { unfold refcount_of in Hr0. by rewrite Hb in Hr0. }
    destruct disk; [|by rewrite !reclaim_unchanged by (by left)..].
    destruct (reclaim_shape fp0 L HrL) as (Hf' & Hn' & Hcnt' & Hrc' & Hpres').
    unfold reclaim at 1. rewrite Hb, Hrcb.
    split; simpl.
    + exact (reach_step hash (OpReclaim DiskOk fp0) _ Hreach).
    + by rewrite Hf'.
    + by rewrite Hn'.
    + by rewrite Hcnt'.
    + by rewrite Hcnt'.
    + intros fp. specialize (Hrc fp). rewrite Hrc'.
      unfold refcount_of in *. simpl.
      destruct (decide (fp = fp0)) as [->|Hne].
      * rewrite lookup_delete_eq. rewrite Hb, Hrcb in Hrc.
        tag_insert Hi. tag_done.
      * rewrite lookup_delete_ne by done. tag_insert Hi. tag_done.
    + intros fp Hs. apply Hpres' in Hs as [Hne Hs].
      rewrite lookup_delete_ne by done. by apply Hpres.
    + intros fp. specialize (Hhold fp). tag_insert Hi. tag_done.
    + intros fp Hs. destruct (decide (fp = fp0)) as [->|Hne].
      * rewrite lookup_delete_eq in Hs. by destruct Hs.
      * rewrite lookup_delete_ne in Hs by done.
        specialize (Hcre fp Hs). tag_insert Hi. tag_done.
    + intros fp. specialize (Hhist fp).
      rewrite writes_of_cons, deletions_of_cons.
      destruct (decide (fp = fp0)) as [->|Hne].
      * rewrite lookup_delete_eq. rewrite Hb in Hhist. tag_insert Hi. tag_done.
      * rewrite lookup_delete_ne by done. tag_insert Hi. tag_done.
    + by apply Forall_insert.
  - (* the lookup inside the critical section *)
    destruct (blobs st !! hash c) as [b|] eqn:Hb.
    + split; simpl; try done.
      * intros fp. specialize (Hrc fp). unfold refcount_of in *. simpl.
        destruct (decide (fp = hash c)) as [->|Hne].
        -- rewrite lookup_insert_eq. rewrite Hb in Hrc. simpl.
           tag_insert Hi. tag_done.
        -- rewrite lookup_insert_ne by done. tag_insert Hi. tag_done.
      * intros fp Hs. apply lookup_insert_is_Some'. right. by apply Hpres.
      * intros fp. specialize (Hhold fp). tag_insert Hi. tag_done.
      * intros fp Hs. apply lookup_insert_is_Some' in Hs.
        assert (is_Some (blobs st !! fp)) as Hs' by (destruct Hs as [<-|]; eauto).
        specialize (Hcre fp Hs'). tag_insert Hi. tag_done.
      * intros fp. specialize (Hhist fp).
        destruct (decide (fp = hash c)) as [->|Hne].
        -- rewrite lookup_insert_eq. rewrite Hb in Hhist. tag_insert Hi. tag_done.
        -- rewrite lookup_insert_ne by done. tag_insert Hi. tag_done.
      * by apply Forall_insert.
    + split; simpl; try done.
      * intros fp. specialize (Hrc fp). tag_insert Hi. tag_done.
      * intros fp. specialize (Hhold fp). tag_insert Hi. tag_done.
      * intros fp Hs. specialize (Hcre fp Hs). tag_insert Hi.
        repeat case_decide; simplify_eq; try lia.
        rewrite Hb in Hs. by destruct Hs.
      * intros fp. specialize (Hhist fp). tag_insert Hi. tag_done.
      * by apply Forall_insert.
  - (* the write *)
    destruct disk; simpl.
    + split; simpl; try done.
      * intros fp. specialize (Hrc fp). unfold refcount_of in *. simpl.
        tag_insert Hi. tag_done.
      * intros fp. specialize (Hhold fp). tag_insert Hi. tag_done.
      * intros fp Hs. specialize (Hcre fp Hs). tag_insert Hi. tag_done.
      * intros fp. specialize (Hhist fp).
        rewrite writes_of_cons, deletions_of_cons. tag_insert Hi. tag_done.
      * by apply Forall_insert.
    + split; simpl; try done.
      * intros fp. specialize (Hrc fp). tag_insert Hi. tag_done.
      * intros fp. specialize (Hhold fp). tag_insert Hi. tag_done.
      * intros fp Hs. specialize (Hcre fp Hs). tag_insert Hi. tag_done.
      * intros fp. specialize (Hhist fp). tag_insert Hi. tag_done.
      * by apply Forall_insert.
    + split; simpl; try done.
      * intros fp. specialize (Hrc fp). tag_insert Hi. tag_done.
      * intros fp. specialize (Hhold fp). tag_insert Hi. tag_done.
      * intros fp Hs. specialize (Hcre fp Hs). tag_insert Hi. tag_done.
      * intros fp. specialize (Hhist fp). tag_insert Hi. tag_done.
      * by apply Forall_insert.
  - (* the commit of the Blob record *)
    assert (blobs st !! hash c = None) as Hb.
    { destruct (blobs st !! hash c) as [b|] eqn:Hb; [|done].
      pose proof (Hcre (hash c) ltac:(by rewrite Hb)) as H0.
      pose proof (tagged_pos creating (hash c) pool i _ Hi eq_refl). lia. }
    pose proof (tagged_pos creating (hash c) pool i _ Hi eq_refl) as Hc1.
    split; simpl; try done.
    + intros fp. specialize (Hrc fp). unfold refcount_of in *. simpl.
      destruct (decide (fp = hash c)) as [->|Hne].
      * rewrite lookup_insert_eq. rewrite Hb in Hrc. simpl.
        tag_insert Hi. tag_done.
      * rewrite lookup_insert_ne by done. tag_insert Hi. tag_done.
    + intros fp Hs. apply lookup_insert_is_Some'. right. by apply Hpres.
    + intros fp. specialize (Hhold fp). tag_insert Hi. tag_done.
    + intros fp Hs. specialize (Hci fp). specialize (Hhold fp).
      destruct (decide (fp = hash c)) as [->|Hne].
      * tag_insert Hi. tag_done.
      * rewrite lookup_insert_ne in Hs by done. specialize (Hcre fp Hs).
        tag_insert Hi. tag_done.
    + intros fp. specialize (Hhist fp).
      destruct (decide (fp = hash c)) as [->|Hne].
      * rewrite lookup_insert_eq. rewrite Hb in Hhist. tag_insert Hi. tag_done.
      * rewrite lookup_insert_ne by done. tag_insert Hi. tag_done.
    + by apply Forall_insert.
  - (* File Index create *)
    assert (ref_fingerprint ref = hash c) as Href.
    { by apply (Forall_lookup_1 _ _ _ _ Hlink Hi). }
    pose proof (tagged_pos holds_ref (hash c) pool i _ Hi eq_refl) as Hh1.
    destruct (upload_shape meta c L) as (Hf' & Hn' & Hrc' & Hpres' & Hcnt').
    split; simpl.
    + exact (reach_step hash (OpUpload DiskOk meta (Complete c)) _ Hreach).
    + by rewrite Hf', Hfiles, Hnext, Href.
    + by rewrite Hn', Hnext.
    + rewrite Hcnt'. simpl. lia.
    + rewrite Hcnt'. simpl. rewrite Href, <- Hfiles.
      pose proof (refcount_mcount L (hash c) HinvL) as Hm.
      destruct (refcount_of (hash c) L) as [|m] eqn:Hr.
      * rewrite bool_decide_true by done. rewrite bool_decide_true by lia. lia.
      * rewrite bool_decide_false by lia. rewrite bool_decide_false by lia. lia.
    + intros fp. specialize (Hrc fp). rewrite Hrc'.
      change (refcount_of fp _) with (refcount_of fp st) at 1.
      tag_insert Hi. tag_done.
    + intros fp Hs. apply Hpres' in Hs as [->|Hs]; [|by apply Hpres].
      specialize (Hrc (hash c)).
      destruct (refcount_pos (hash c) st) as (b & Hb & _); [lia|].
      by rewrite Hb.
    + intros fp. specialize (Hhold fp). tag_insert Hi. tag_done.
    + intros fp Hs. specialize (Hcre fp Hs). tag_insert Hi. tag_done.
    + intros fp. specialize (Hhist fp). tag_insert Hi. tag_done.
    + by apply Forall_insert.
  - (* unlink *)
    destruct (decide (fingerprint f ∈ lk)) as [Hin|Hout].
    { rewrite list_insert_id by done. rewrite ?decide_True by done. done. }
    pose proof (tagged_pos holds_ref (fingerprint f) pool i _ Hi eq_refl) as Hh1.
    destruct (refcount_pos (fingerprint f) st) as (b & Hb & Hpos).
    { specialize (Hrc (fingerprint f)). lia. }
    unfold unlink. rewrite Hb.
    destruct (reference_count b) as [|m] eqn:Hrcb; [lia|].
    split; simpl; try done.
    + intros fp. specialize (Hrc fp). unfold refcount_of in *. simpl.
      destruct (decide (fp = fingerprint f)) as [->|Hne].
      * rewrite lookup_insert_eq. rewrite Hb, Hrcb in Hrc. simpl.
        tag_insert Hi. tag_done.
      * rewrite lookup_insert_ne by done. tag_insert Hi. tag_done.
    + intros fp Hs. apply lookup_insert_is_Some'. right. by apply Hpres.
    + intros fp. specialize (Hhold fp). tag_insert Hi. tag_done.
    + intros fp Hs. apply lookup_insert_is_Some' in Hs.
      assert (is_Some (blobs st !! fp)) as Hs' by (destruct Hs as [<-|]; eauto).
      specialize (Hcre fp Hs'). tag_insert Hi. tag_done.
    + intros fp. specialize (Hhist fp).
      destruct (decide (fp = fingerprint f)) as [->|Hne].
      * rewrite lookup_insert_eq. rewrite Hb in Hhist. tag_insert Hi. tag_done.
      * rewrite lookup_insert_ne by done. tag_insert Hi. tag_done.
    + by apply Forall_insert.
  - rewrite list_insert_id by done. done.
Qed.

Lemma run_ops_app ops1 ops2 st :
  run_ops (ops1 ++ ops2) st = run_ops ops2 (run_ops ops1 st).
Proof. apply fold_left_app. Qed.

Lemma reachable_run_ops ops : ∀ st, reachable st → reachable (run_ops ops st).
Proof.
  induction ops as [|op ops IH]; intros st Hst; [done|].
  apply IH. exact (reach_step hash op _ Hst).
Qed.

Lemma linearized_run sched : ∀ cfg L,
  linearized cfg L →
  linearized (interleave sched cfg) (run_ops (committed sched cfg) L).
Proof.
  induction sched as [|i sched IH]; intros cfg L HL; [done|].
  simpl. rewrite run_ops_app. apply IH. by apply linearized_step.
Qed.

(** At every moment of every interleaving the engine is linearized by
    the transactions committed so far. *)
Lemma linearized_interleave st0 ops sched :
  reachable st0 →
  linearized (interleave sched (start st0 ops)) (linearization sched st0 ops).
Proof. intros Hst. by apply linearized_run, linearized_start. Qed.

Lemma tagged_settled fp pool : settled pool → tagged holds_ref fp pool = 0.
Proof. apply tagged_none. Qed.

Lemma settled_refcount cfg L fp :
  linearized cfg L → settled (pool cfg) →
  refcount_of fp (store cfg) = refcount_of fp L.
Proof.
  intros HL Hs. rewrite (lz_refcount _ _ _ HL fp), tagged_settled by done. lia.
Qed.

Lemma live_size_refcount st st' :
  (∀ fp, refcount_of fp st = refcount_of fp st') →
  size (filter (λ kv, live kv.2) (blobs st)) =
  size (filter (λ kv, live kv.2) (blobs st')).
Proof.
  intros Hrc. rewrite <- !size_dom. f_equal. apply set_eq. intros fp.
  rewrite !elem_of_dom. unfold is_Some.
  setoid_rewrite map_lookup_filter_Some. simpl.
  specialize (Hrc fp). unfold refcount_of, live in *.
  split; intros (b & Hb & Hl); rewrite Hb in Hrc.
  - destruct (blobs st' !! fp) as [b'|]; [|lia]. exists b'. split; [done|lia].
  - destruct (blobs st !! fp) as [b'|]; [|lia]. exists b'. split; [done|lia].
Qed.

(** When no request holds a reference of its own, the Blobs in use are
    the Blobs with a positive count, and the full recomputation is the
    plain scan. *)
Lemma in_use_settled cfg :
  settled (pool cfg) →
  filter (in_use (pool cfg)) (blobs (store cfg)) =
  filter (λ kv, live kv.2) (blobs (store cfg)).
Proof.
  intros Hs. apply map_filter_ext. intros fp b _.
  unfold Engine.in_use, live. simpl. by rewrite tagged_settled.
Qed.

Lemma rescan_settled cfg :
  settled (pool cfg) → rescan cfg = recompute (store cfg).
Proof.
  intros Hs. unfold Engine.rescan, recompute. by rewrite in_use_settled.
Qed.

(** At every moment of every interleaving a FileEntry points at a Blob
    that is there, with a positive reference count. *)
Lemma entry_blob_in_flight st0 ops sched id f :
  reachable st0 →
  files (store (interleave sched (start st0 ops))) !! id = Some f →
  ∃ b, blobs (store (interleave sched (start st0 ops))) !! fingerprint f = Some b ∧
       0 < reference_count b.
Proof.
  intros Hst Hf.
  pose proof (linearized_interleave st0 ops sched Hst) as HL.
  rewrite <- (lz_files _ _ _ HL) in Hf.
  destruct (reachable_entry_blob _ id f (lz_reachable _ _ _ HL) Hf)
    as (b & Hb & Hpos).
  apply refcount_pos. rewrite (lz_refcount _ _ _ HL (fingerprint f)).
  unfold refcount_of at 1. rewrite Hb. lia.
Qed.

(** The Blobs in use as of the committed requests are the Blobs with a
    positive count in the linearization. *)
Lemma in_use_size cfg L :
  linearized cfg L →
  size (filter (in_use (pool cfg)) (blobs (store cfg))) =
  size (filter (λ kv, live kv.2) (blobs L)).
Proof.
  intros HL. rewrite <- !size_dom. f_equal. apply set_eq. intros fp.
  rewrite !elem_of_dom. unfold is_Some.
  setoid_rewrite map_lookup_filter_Some. unfold Engine.in_use. simpl.
  pose proof (lz_refcount _ _ _ HL fp) as Hrc.
  unfold refcount_of, live in *.
  split; intros (b & Hb & Hl); rewrite Hb in Hrc.
  - destruct (blobs L !! fp) as [b'|]; [|lia]. exists b'. split; [done|lia].
  - destruct (blobs (store cfg) !! fp) as [b'|]; [|lia].
    exists b'. split; [done|lia].
Qed.


(** *** Physical writes and concurrent uploads *)

(** At every moment a fingerprint has been written at most once more
    often than it has been deleted. *)
Lemma writes_bounded cfg L fp :
  linearized cfg L →
  writes_of fp (history (store cfg)) ≤ deletions_of fp (history (store cfg)) + 1.
Proof.
  intros HL. rewrite (lz_history _ _ _ HL fp).
  pose proof (lz_creating _ _ _ HL fp) as Hcre.
  pose proof (lz_holders _ _ _ HL fp) as Hhold.
  assert (tagged written fp (pool cfg) ≤ tagged creating fp (pool cfg)) as H1.
  { apply tagged_le. by intros [| | | | | |]. }
  assert (tagged creating fp (pool cfg) ≤ tagged inside fp (pool cfg)) as H2.
  { apply tagged_le. by intros [| | | | | |]. }
  destruct (blobs (store cfg) !! fp) as [b|].
  - rewrite Hcre in H1 by done. lia.
  - case_decide; lia.
Qed.

Lemma uploaded_ids_insert_same pool : ∀ i t t',
  pool !! i = Some t → uploaded_id t = uploaded_id t' →
  uploaded_ids (<[i:=t']> pool) = uploaded_ids pool.
Proof.
  unfold uploaded_ids.
  induction pool as [|x pool IH]; intros [|i] t t' Hi Hd; simpl in *; try done.
  - injection Hi as ->. by rewrite Hd.
  - destruct (uploaded_id x); [f_equal|]; apply (IH i t t' Hi Hd).
Qed.

Lemma uploaded_ids_insert_new pool : ∀ i t id,
  pool !! i = Some t → uploaded_id t = None →
  uploaded_ids (<[i:=Finished (Uploaded id)]> pool) ≡ₚ id :: uploaded_ids pool.
Proof.
  unfold uploaded_ids.
  induction pool as [|x pool IH]; intros [|i] t id Hi Hd; simpl in *; try done.
  - injection Hi as ->. by rewrite Hd.
  - destruct (uploaded_id x) as [y|]; [|apply (IH i t id Hi Hd)].
    etrans; [|apply perm_swap]. constructor. apply (IH i t id Hi Hd).
Qed.

Lemma uploaded_ids_waiting ops : uploaded_ids (Waiting <$> ops) = [].
Proof. unfold uploaded_ids. induction ops as [|op ops IH]; [done|exact IH]. Qed.

(** When all uploads of the content have finished, each has returned an
    identity. *)
Lemma all_uploaded c pool :
  Forall (uploads c) pool → forallb is_finished pool = true →
  pool = (λ id, Finished (Uploaded id)) <$> uploaded_ids pool ∧
  length (uploaded_ids pool) = length pool ∧
  settled pool.
Proof.
  unfold uploaded_ids, Engine.settled.
  induction 1 as [|t pool Ht _ IH]; simpl; [done|].
  destruct t as [| | | | | |[id| | |]]; simpl in *; try done.
  intros Hfin. destruct (IH Hfin) as (Hp & Hl & Hs).
  split; [by f_equal|]. split; [by f_equal|]. by constructor.
Qed.

Lemma uploading_start c metas st0 :
  reachable st0 → uploading c st0 (start st0 (uploads_of metas c)).
Proof.
  intros Hst. pose proof (reachable_inv _ Hst) as Hinv.
  split; simpl; rewrite ?uploaded_ids_waiting; simpl.
  - unfold uploads_of. rewrite <- list_fmap_compose.
    apply Forall_fmap, Forall_forall. by intros meta _.
  - apply (inv_fresh _ Hinv).
  - done.
  - lia.
  - lia.
  - intros id Hid. inversion Hid.
  - constructor.
  - by exists 0.
Qed.

Lemma uploading_thread c st0 st st' lk lk' pool i t t' :
  uploading c st0 (mkConfig st lk pool) →
  pool !! i = Some t → uploaded_id t = uploaded_id t' → uploads c t' →
  files st' = files st → next_id st' = next_id st → history st' = history st →
  uploading c st0 (mkConfig st' lk' (<[i:=t']> pool)).
Proof.
  intros [Hthr Hfresh Hnext Hsize Hrefs Hids Hnd Hhist] Hi Hup Hok Hf Hn Hh.
  simpl in *.
  split; simpl; rewrite ?(uploaded_ids_insert_same pool i t t') by done;
    rewrite ?Hf, ?Hn, ?Hh; try done.
  by apply Forall_insert.
Qed.

Lemma uploading_step c st0 cfg L i :
  linearized cfg L → uploading c st0 cfg → uploading c st0 (sched_step cfg i).
Proof.
  destruct cfg as [st lk pool]. intros HL Hup. unfold Engine.sched_step. simpl.
  destruct (pool !! i) as [t|] eqn:Hi; [|done].
  pose proof (Forall_lookup_1 _ _ _ _ (up_threads _ _ _ _ Hup) Hi) as Ht.
  pose proof (Forall_lookup_1 _ _ _ _ (lz_linked _ _ _ HL) Hi) as Hlt.
  simpl in Ht, Hlt.
  destruct t as [[disk meta s|disk id|disk fp0]|disk meta c'|disk meta c'|meta c'
                 |meta c' ref|f|o]; simpl in Ht; try done.
  - destruct disk; try done. destruct s as [c'|p]; [|done]. subst c'. simpl.
    destruct (decide (hash c ∈ lk)); by eapply uploading_thread.
  - destruct disk; try done. subst c'. simpl.
    destruct (blobs st !! hash c); by eapply uploading_thread.
  - destruct disk; try done. subst c'. simpl.
    destruct Hup as [Hthr Hfresh Hnext Hsize Hrefs Hids Hnd [n Hhist]].
    simpl in *.
    split; simpl;
      rewrite ?(uploaded_ids_insert_same pool i (UWriting DiskOk meta c)
                  (UWritten meta c)) by done; try done.
    + by apply Forall_insert.
    + exists (S n). by rewrite Hhist.
  - subst c'. simpl. by eapply uploading_thread.
  - subst c'. simpl.
    destruct Hup as [Hthr Hfresh Hnext Hsize Hrefs Hids Hnd Hhist].
    simpl in *.
    pose proof (uploaded_ids_insert_new pool i _ (next_id st) Hi eq_refl) as Hperm.
    assert (files st !! next_id st = None) as Hnone.
    { destruct (files st !! next_id st) as [f|] eqn:Hf; [|done].
      apply Hfresh in Hf. lia. }
    assert (next_id st ∉ uploaded_ids pool) as Hnotin.
    { intros Hin. destruct (Hids _ Hin) as (_ & f & Hf & _). congruence. }
    split; simpl.
    + by apply Forall_insert.
    + intros id f Hid. destruct (decide (id = next_id st)) as [->|Hne]; [lia|].
      rewrite lookup_insert_ne in Hid by done. apply Hfresh in Hid. lia.
    + lia.
    + rewrite map_size_insert_None by done. rewrite Hperm. simpl. lia.
    + rewrite mcount_insert_fresh by done. rewrite Hperm, Hrefs.
      unfold indicator. rewrite decide_True by done. simpl length. lia.
    + intros id. rewrite Hperm. intros Hid.
      apply elem_of_cons in Hid as [->|Hid].
      * split; [done|]. rewrite lookup_insert_eq. eexists. split; [done|].
        done.
      * destruct (Hids id Hid) as (Hle & f & Hf & Hfp). split; [done|].
        exists f. split; [|done]. rewrite lookup_insert_ne; [done|].
        intros <-. done.
    + rewrite Hperm. by apply NoDup_cons.
    + done.
  - destruct o; try done. simpl. rewrite list_insert_id by done. by destruct Hup.
Qed.

Lemma uploading_run c st0 sched : ∀ cfg L,
  linearized cfg L → uploading c st0 cfg →
  uploading c st0 (interleave sched cfg).
Proof.
  induction sched as [|i sched IH]; intros cfg L HL Hup; [done|].
  simpl. eapply IH.
  - by apply linearized_step.
  - by eapply uploading_step.
Qed.

(** *** Progress *)

Lemma todo_all_insert pool : ∀ i t t',
  pool !! i = Some t →
  todo_all (<[i:=t']> pool) + todo t = todo_all pool + todo t'.
Proof.
  unfold todo_all.
  induction pool as [|x pool IH]; intros [|i] t t' Hi; simpl in *; try done.
  - injection Hi as ->. lia.
  - specialize (IH i t t' Hi). unfold fmap in IH. lia.
Qed.

Lemma todo_all_finished pool :
  todo_all pool = 0 → forallb is_finished pool = true.
Proof.
  unfold todo_all. induction pool as [|t pool IH]; simpl; [done|].
  intros H. unfold fmap in IH. destruct t; simpl in *; try lia. apply IH. lia.
Qed.

Lemma todo_all_pos pool :
  0 < todo_all pool → ∃ i t, pool !! i = Some t ∧ 0 < todo t.
Proof.
  unfold todo_all. induction pool as [|t pool IH]; simpl; [lia|].
  intros H. unfold fmap in IH. destruct (decide (0 < todo t)) as [Ht|Ht].
  - by exists 0, t.
  - destruct IH as (i & t' & Hi & Ht'); [lia|]. by exists (S i), t'.
Qed.

(** A request inside a critical section can always take its next
    action, and when no request is inside one, every request can: some
    request always makes progress. *)
Lemma progress cfg L :
  linearized cfg L → 0 < todo_all (pool cfg) →
  ∃ i, todo_all (pool (sched_step cfg i)) < todo_all (pool cfg).
Proof.
  destruct cfg as [st lk pool]. intros HL Hpos. simpl in *.
  destruct (decide (Exists (λ t, is_Some (inside t)) pool)) as [Hex|Hnone].
  - apply Exists_exists in Hex as (t & Hin & Hins).
    apply list_elem_of_lookup in Hin as [i Hi]. exists i.
    unfold Engine.sched_step. simpl. rewrite Hi.
    destruct t as [op|disk meta c|disk meta c|meta c|meta c ref|f|o];
      simpl in Hins; try by destruct Hins.
    + simpl. destruct (blobs st !! hash c); simpl;
        match goal with
        | |- context [<[i:=?t']> pool] =>
            pose proof (todo_all_insert pool i _ t' Hi) as Hins'
        end; simpl in Hins'; lia.
    + simpl. destruct disk; simpl;
        match goal with
        | |- context [<[i:=?t']> pool] =>
            pose proof (todo_all_insert pool i _ t' Hi) as Hins'
        end; simpl in Hins'; lia.
    + simpl.
      match goal with
      | |- context [<[i:=?t']> pool] =>
          pose proof (todo_all_insert pool i _ t' Hi) as Hins'
      end; simpl in Hins'; lia.
  - assert (∀ fp, fp ∉ lk) as Hfree.
    { intros fp Hfp. pose proof (lz_holders _ _ _ HL fp) as Hh. simpl in Hh.
      rewrite decide_True in Hh by done.
      unfold tagged in Hh.
      destruct (filter (λ t, inside t = Some fp) pool) as [|t l] eqn:Hf;
        [done|].
      assert (t ∈ filter (λ t, inside t = Some fp) pool) as Hin
        by (rewrite Hf; left).
      apply list_elem_of_filter in Hin as [Hins Hin].
      apply Hnone, Exists_exists. exists t. split; [done|]. by rewrite Hins. }
    destruct (todo_all_pos pool Hpos) as (i & t & Hi & Ht). exists i.
    unfold Engine.sched_step. simpl. rewrite Hi.
    assert (¬ is_Some (inside t)) as Hnot.
    { intros Hins. apply Hnone, Exists_exists. exists t. split; [|done].
      by eapply list_elem_of_lookup_2. }
    destruct t as [[disk meta s|disk id|disk fp0]|disk meta c|disk meta c|meta c
                   |meta c ref|f|o]; simpl in Ht, Hnot;
      try (exfalso; apply Hnot; by eexists); try lia; simpl.
    + destruct s as [c|p]; simpl; rewrite ?decide_False by apply Hfree; simpl;
        match goal with
        | |- context [<[i:=?t']> pool] =>
            pose proof (todo_all_insert pool i _ t' Hi) as Hins'
        end; simpl in Hins'; lia.
    + unfold index_delete. destruct (files st !! id); [destruct disk|]; simpl;
        match goal with
        | |- context [<[i:=?t']> pool] =>
            pose proof (todo_all_insert pool i _ t' Hi) as Hins'
        end; simpl in Hins'; lia.
    + rewrite decide_False by apply Hfree. simpl.
      match goal with
      | |- context [<[i:=?t']> pool] =>
          pose proof (todo_all_insert pool i _ t' Hi) as Hins'
      end; simpl in Hins'; lia.
    + match goal with
      | |- context [<[i:=?t']> pool] =>
          pose proof (todo_all_insert pool i _ t' Hi) as Hins'
      end; simpl in Hins'; lia.
    + rewrite decide_False by apply Hfree.
      destruct (unlink (fingerprint f) st) as [st1 [d|e]]; simpl;
        match goal with
        | |- context [<[i:=?t']> pool] =>
            pose proof (todo_all_insert pool i _ t' Hi) as Hins'
        end; simpl in Hins'; lia.
Qed.

(** Every pool of requests can be run to its end. *)
Lemma completes n : ∀ cfg L,
  linearized cfg L → todo_all (pool cfg) ≤ n →
  ∃ sched, forallb is_finished (pool (interleave sched cfg)) = true.
Proof.
  induction n as [|n IH]; intros cfg L HL Hn.
  - exists []. apply todo_all_finished. simpl. lia.
  - destruct (decide (todo_all (pool cfg) = 0)) as [H0|H0].
    + exists []. by apply todo_all_finished.
    + destruct (progress cfg L HL) as [i Hi]; [lia|].
      destruct (IH (sched_step cfg i) _ (linearized_step cfg L i HL)) as [sched Hs];
        [lia|].
      by exists (i :: sched).
Qed.

(** *** One physical write *)

Lemma sched_step_length cfg i :
  length (pool (sched_step cfg i)) = length (pool cfg).
Proof.
  unfold Engine.sched_step. destruct (pool cfg !! i) as [t|]; [|done].
  destruct (act t (store cfg) (locks cfg)) as [[st' lk'] t']. simpl.
  by rewrite length_insert.
Qed.

Lemma interleave_length sched : ∀ cfg,
  length (pool (interleave sched cfg)) = length (pool cfg).
Proof.
  induction sched as [|i sched IH]; intros cfg; [done|].
  simpl. by rewrite IH, sched_step_length.
Qed.

Lemma writes_of_replicate fp n h :
  writes_of fp (replicate n (PhysWrite fp) ++ h) = n + writes_of fp h.
Proof.
  induction n as [|n IH]; [done|]. simpl.
  rewrite writes_of_cons, decide_True by done. lia.
Qed.

Lemma deletions_of_replicate fp n h :
  deletions_of fp (replicate n (PhysWrite fp) ++ h) = deletions_of fp h.
Proof.
  induction n as [|n IH]; [done|]. simpl.
  rewrite deletions_of_cons, decide_False by done. lia.
Qed.


(** *** Storage errors *)

(** While requests interleave, a request that has changed nothing after
    an action had changed nothing before it, and the action changed
    nothing: a request that fails has left the store as it was. *)
Lemma clean_action cfg L i t :
  linearized cfg L → pool cfg !! i = Some t →
  clean (act t (store cfg) (locks cfg)).2 →
  clean t ∧ (act t (store cfg) (locks cfg)).1.1 = store cfg.
Proof.
  destruct cfg as [st lk pool]. simpl. intros HL Hi.
  destruct t as [[disk meta s|disk id|disk fp0]|disk meta c|disk meta c|meta c
                 |meta c ref|f|o]; simpl.
  - destruct s as [c|p]; simpl; [|done]. by destruct (decide (hash c ∈ lk)).
  - unfold index_delete. destruct (files st !! id) as [f|]; [|done].
    by destruct disk.
  - by destruct (decide (fp0 ∈ lk)).
  - by destruct (blobs st !! hash c).
  - by destruct disk.
  - done.
  - done.
  - destruct (decide (fingerprint f ∈ lk)); [done|].
    pose proof (tagged_pos holds_ref (fingerprint f) pool i _ Hi eq_refl) as Hh.
    pose proof (lz_refcount _ _ _ HL (fingerprint f)) as Hrc. simpl in Hrc.
    destruct (refcount_pos (fingerprint f) st) as (b & Hb & Hpos); [lia|].
    unfold unlink. rewrite Hb. by destruct (reference_count b); [lia|].
  - done.
Qed.

Lemma failed_request_changed_nothing st0 ops sched i t :
  reachable st0 →
  pool (interleave sched (start st0 ops)) !! i = Some t →
  clean (act t (store (interleave sched (start st0 ops)))
             (locks (interleave sched (start st0 ops)))).2 →
  clean t ∧
  (act t (store (interleave sched (start st0 ops)))
       (locks (interleave sched (start st0 ops)))).1.1 =
  store (interleave sched (start st0 ops)).
Proof.
  intros Hst. apply (clean_action _ _ i t (linearized_interleave st0 ops sched Hst)).
Qed.

(** C8. An upload either fails and leaves the state as it was, or
    succeeds with both halves in place: a new FileEntry under a fresh
    identity and the Blob it points at, referenced and physically stored.
    It fails exactly when the stream is truncated, or the content is new
    and the write fails or storage is full.  A logical delete fails when
    the file is unknown and whenever storage fails, and then leaves the
    state as it was; when it succeeds, storage answered, the FileEntry is
    gone and its Blob has lost exactly one reference, with the reclaim
    decision telling whether that was the last.  The delete endpoint
    fails as the logical delete does, and otherwise forwards the decision
    to the Reclaimer.  A [put_or_link] that fails creates no Blob and
    changes no reference count, and it fails whenever the Blob is new and
    the write fails or storage is full. *)
Theorem storage_errors_abort disk rdisk meta s id fp c n st :
  reachable st →
  match upload disk meta s st with
  | (st', Ok fid) =>
      files st !! fid = None ∧
      ∃ f b, files st' !! fid = Some f ∧
             hasher hash s = Ok (fingerprint f) ∧
             blobs st' !! fingerprint f = Some b ∧
             reference_count b = S (refcount_of (fingerprint f) st) ∧
             is_Some (physical st' !! fingerprint f) ∧
             files st' = <[fid := f]> (files st) ∧
             (blobs st !! fingerprint f = None → disk = DiskOk)
  | (st', Err e) =>
      st' = st ∧
      (((∃ p, s = Truncated p) ∧ e = IOFailure) ∨
       (∃ c0, s = Complete c0 ∧ blobs st !! hash c0 = None ∧
              ((disk = DiskError ∧ e = IOFailure) ∨
               (disk = DiskFull ∧ e = CapacityExceeded))))
  end ∧
  ((∃ p, s = Truncated p) ∨
   (∃ c0, s = Complete c0 ∧ blobs st !! hash c0 = None ∧ disk ≠ DiskOk) →
   ∃ e, upload disk meta s st = (st, Err e)) ∧
  match delete_file disk id st with
  | (st', Ok d) =>
      is_Some (files st !! id) ∧ files st' = delete id (files st) ∧
      disk = DiskOk ∧
      ∃ f b, files st !! id = Some f ∧
             blobs st !! fingerprint f = Some b ∧
             reference_count b = S (refcount_of (fingerprint f) st') ∧
             blobs st' =
               <[fingerprint f :=
                   mkBlob (blob_size b) (refcount_of (fingerprint f) st')]>
                 (blobs st) ∧
             physical st' = physical st ∧
             d = match refcount_of (fingerprint f) st' with
                 | O => Reclaim (fingerprint f) (blob_size b)
                 | S _ => Retain
                 end
  | (st', Err e) =>
      st' = st ∧
      ((files st !! id = None ∧ e = NotFound) ∨
       (is_Some (files st !! id) ∧ disk ≠ DiskOk ∧ e = IOFailure))
  end ∧
  (is_Some (files st !! id) → disk ≠ DiskOk →
   delete_file disk id st = (st, Err IOFailure)) ∧
  (files st !! id = None → delete_file disk id st = (st, Err NotFound)) ∧
  match delete_endpoint disk rdisk id st with
  | (st', Ok d) =>
      ∃ st1, delete_file disk id st = (st1, Ok d) ∧
             st' = match d with
                   | Reclaim fp' _ => reclaim rdisk fp' st1
                   | Retain => st1
                   end
  | (st', Err e) => st' = st ∧ delete_file disk id st = (st, Err e)
  end ∧
  match put_or_link disk fp c n st with
  | (st', Ok _) => True
  | (st', Err e) =>
      st' = st ∧ blobs st' !! fp = None ∧ refcount_of fp st' = refcount_of fp st ∧
      ((disk = DiskError ∧ e = IOFailure) ∨
       (disk = DiskFull ∧ e = CapacityExceeded))
  end ∧
  (blobs st !! fp = None → disk ≠ DiskOk →
   ∃ e, put_or_link disk fp c n st = (st, Err e)).
Proof.
  intros Hst. pose proof (reachable_inv _ Hst) as Hinv.
  assert (∀ f, files st !! id = Some f → disk = DiskOk →
            ∃ b m, blobs st !! fingerprint f = Some b ∧
                   reference_count b = S m ∧
                   delete_file disk id st =
                     (set_counters
                        (count_delete f
                           (match m with
                            | O => Reclaim (fingerprint f) (blob_size b)
                            | S _ => Retain
                            end) (counters st))
                        (set_blobs
                           (<[fingerprint f := mkBlob (blob_size b) m]> (blobs st))
                           (set_files (delete id (files st)) st)),
                      Ok (match m with
                          | O => Reclaim (fingerprint f) (blob_size b)
                          | S _ => Retain
                          end))) as Hdel.
  { intros f Hf ->. destruct (reachable_entry_blob st id f Hst Hf) as (b & Hb & Hpos).
    destruct (reference_count b) as [|m] eqn:Hrc; [lia|]. exists b, m.
    split; [done|]. split; [done|].
    unfold delete_file, index_delete. rewrite Hf. simpl.
    unfold unlink. simpl. rewrite Hb, Hrc. done. }
  assert (is_Some (files st !! id) → disk ≠ DiskOk →
          delete_file disk id st = (st, Err IOFailure)) as Hdel_io.
  { intros [f Hf] Hd. unfold delete_file, index_delete. rewrite Hf.
    by destruct disk. }
  assert (files st !! id = None → delete_file disk id st = (st, Err NotFound))
    as Hdel_nf.
  { intros Hf. unfold delete_file, index_delete. by rewrite Hf. }
  split; [|split; [|split; [|split; [|split; [|split; [|split]]]]]].
  - destruct (upload disk meta s st) as [st' [fid|e]] eqn:Hup.
    + pose proof (inv_upload disk meta s st Hinv) as Hinv'.
      rewrite Hup in Hinv'. simpl in Hinv'.
      unfold Engine.upload, hasher in Hup.
      destruct s as [c0|p]; simpl in Hup; [|done].
      destruct (put_or_link disk (hash c0) c0 (String.length c0) st)
        as [st1 [ref|e1]] eqn:Hput; simpl in Hup; [|done].
      injection Hup as <- <-.
      assert (blobs st !! hash c0 = None → disk = DiskOk) as Hdisk.
      { intros Hnone. unfold put_or_link in Hput. rewrite Hnone in Hput.
        by destruct disk. }
      apply put_or_link_ok in Hput as (Href & b & Hb & Hpos & Hrc & Hfiles & Hnext).
      rewrite Hnext. split; [by apply inv_next_id_fresh|].
      exists (mkFileEntry meta (String.length c0) (ref_fingerprint ref)), b.
      simpl. rewrite Href, lookup_insert_eq, Hfiles. repeat split; try done.
      destruct (physical st1 !! hash c0) as [c1|] eqn:Hp; [by eexists|].
      apply (inv_physical _ Hinv') in Hp. simpl in Hp. congruence.
    + split; [by apply upload_error in Hup|].
      unfold Engine.upload, hasher in Hup.
      destruct s as [c0|p]; simpl in Hup.
      * destruct (put_or_link disk (hash c0) c0 (String.length c0) st)
          as [st1 [ref|e1]] eqn:Hput; simpl in Hup; [done|].
        injection Hup as <- <-.
        apply put_or_link_error in Hput as (_ & Hb & Hd).
        right. by exists c0.
      * injection Hup as <- <-. left. split; [by exists p|done].
  - intros [[p ->]|(c0 & -> & Hb & Hd)].
    + by exists IOFailure.
    + unfold Engine.upload, hasher, put_or_link. simpl. rewrite Hb.
      destruct disk; [done|by eexists..].
  - assert ((∃ f, files st !! id = Some f) ∨ files st !! id = None)
      as [[f Hf]|Hf] by (destruct (files st !! id); eauto).
    + assert (disk = DiskOk ∨ disk ≠ DiskOk) as [Hd|Hd]
        by (destruct disk; [by left|by right..]).
      * destruct (Hdel f Hf Hd) as (b & m & Hb & Hrc & ->).
        split; [by eexists|]. split; [done|]. split; [done|].
        exists f, b. unfold refcount_of. simpl. rewrite lookup_insert_eq.
        simpl. done.
      * rewrite Hdel_io by (by eexists || done).
        split; [done|]. right. split; [by eexists|done].
    + rewrite Hdel_nf by done. split; [done|]. by left.
  - exact Hdel_io.
  - exact Hdel_nf.
  - unfold delete_endpoint.
    destruct (delete_file disk id st) as [st1 [[|fp' sz]|e]] eqn:Hd.
    + by exists st1.
    + by exists st1.
    + pose proof (delete_file_error _ _ _ _ _ Hd) as ->. done.
  - destruct (put_or_link disk fp c n st) as [st' [ref|e]] eqn:Hput; [done|].
    apply put_or_link_error in Hput as (-> & Hb & Hd). auto.
  - intros Hb Hd. unfold put_or_link. rewrite Hb.
    destruct disk; [done|by eexists..].
Qed.

(** *** Sizes: the part that rests on the hash being collision-free *)

Section CollisionFree.

(** Equal fingerprints come from equal content. *)
Hypothesis hash_inj : ∀ c1 c2, hash c1 = hash c2 → c1 = c2.

Lemma inv_size_init : inv_size init.
Proof. constructor; simpl; done. Qed.

(** A FileEntry has the size of the Blob it points at. *)
Lemma nominal_size_blob_size st id f b :
  inv_size st → files st !! id = Some f → blobs st !! fingerprint f = Some b →
  nominal_size f = blob_size b.
Proof.
  intros Hs Hf Hb.
  destruct (inv_file_content _ _ Hs _ _ Hf) as (c & Hc & ->).
  destruct (inv_blob_content _ _ Hs _ _ Hb) as (c' & _ & Hc' & ->).
  f_equal. apply hash_inj. congruence.
Qed.

Lemma inv_size_upload disk meta s st :
  inv st → inv_size st → inv_size (upload disk meta s st).1.
Proof.
  intros Hinv Hs. unfold upload, hasher.
  destruct s as [c|p]; simpl; [|done].
  pose proof (inv_next_id_fresh _ Hinv) as Hfresh.
  unfold put_or_link.
  destruct (blobs st !! hash c) as [b|] eqn:Hb; simpl;
    [|destruct disk; simpl; [|done|done]].
  - assert (blob_size b = String.length c) as Hsize.
    { destruct (inv_blob_content _ _ Hs _ _ Hb) as (c' & _ & Hc' & ->).
      f_equal. by apply hash_inj. }
    constructor; simpl.
    + intros fp b0. destruct (decide (hash c = fp)) as [<-|Hnf].
      * rewrite lookup_insert_eq. intros [= <-]. simpl.
        apply (inv_blob_content _ _ Hs _ _ Hb).
      * rewrite lookup_insert_ne by done. apply (inv_blob_content _ _ Hs).
    + intros id f Hid. destruct (decide (id = next_id st)) as [->|Hne].
      * rewrite lookup_insert_eq in Hid. injection Hid as <-. simpl. eauto.
      * rewrite lookup_insert_ne in Hid by done.
        by apply (inv_file_content _ _ Hs) in Hid.
    + rewrite msum_insert_fresh by done.
      rewrite (msum_insert_update _ _ b) by done. simpl.
      pose proof (inv_size_sum _ _ Hs). lia.
    + rewrite msum_insert_fresh by done. simpl.
      pose proof (inv_sum_total _ _ Hs). lia.
    + rewrite (msum_insert_update _ _ b) by done.
      rewrite !indicator_live. simpl.
      pose proof (inv_sum_actual _ _ Hs).
      destruct (reference_count b); simpl; lia.
  - constructor; simpl.
    + intros fp b0. destruct (decide (hash c = fp)) as [<-|Hnf].
      * rewrite !lookup_insert_eq. intros [= <-]. simpl. eauto.
      * rewrite !lookup_insert_ne by done. apply (inv_blob_content _ _ Hs).
    + intros id f Hid. destruct (decide (id = next_id st)) as [->|Hne].
      * rewrite lookup_insert_eq in Hid. injection Hid as <-. simpl. eauto.
      * rewrite lookup_insert_ne in Hid by done.
        by apply (inv_file_content _ _ Hs) in Hid.
    + rewrite !msum_insert_fresh by done. simpl.
      pose proof (inv_size_sum _ _ Hs). lia.
    + rewrite msum_insert_fresh by done. simpl.
      pose proof (inv_sum_total _ _ Hs). lia.
    + rewrite msum_insert_fresh by done. rewrite indicator_live. simpl.
      pose proof (inv_sum_actual _ _ Hs). lia.
Qed.

Lemma inv_size_delete_file disk id st :
  inv st → inv_size st → inv_size (delete_file disk id st).1.
Proof.
  intros Hinv Hs. unfold delete_file, index_delete.
  destruct (files st !! id) as [f|] eqn:Hf; simpl; [|done].
  destruct disk; simpl; [|done|done].
  unfold unlink. simpl.
  destruct (blobs st !! fingerprint f) as [b|] eqn:Hb; simpl; [|done].
  destruct (reference_count b) as [|n] eqn:Hrc; simpl; [done|].
  pose proof (nominal_size_blob_size _ _ _ _ Hs Hf Hb) as Hsize.
  constructor; simpl.
  - intros fp b0. destruct (decide (fingerprint f = fp)) as [<-|Hnf].
    + rewrite lookup_insert_eq. intros [= <-]. simpl.
      apply (inv_blob_content _ _ Hs _ _ Hb).
    + rewrite lookup_insert_ne by done. apply (inv_blob_content _ _ Hs).
  - intros id' f' Hid. apply lookup_delete_Some in Hid as [_ Hid].
    by apply (inv_file_content _ _ Hs) in Hid.
  - rewrite (msum_delete _ _ f) by done.
    rewrite (msum_insert_update _ _ b) by done. simpl. rewrite Hrc.
    pose proof (inv_size_sum _ _ Hs). lia.
  - rewrite (msum_delete _ _ f) by done.
    pose proof (inv_sum_total _ _ Hs). lia.
  - rewrite (msum_insert_update _ _ b) by done.
    rewrite !indicator_live, Hrc. simpl.
    pose proof (inv_sum_actual _ _ Hs).
    destruct n; simpl; lia.
Qed.

Lemma inv_size_reclaim disk fp st :
  inv st → inv_size st → inv_size (reclaim disk fp st).
Proof.
  intros Hinv Hs. unfold reclaim.
  destruct (blobs st !! fp) as [b|] eqn:Hb; [|done].
  destruct (reference_count b) as [|n] eqn:Hrc; [|done].
  destruct disk; [|done|done].
  constructor; simpl.
  - intros fp' b0 Hb0. apply lookup_delete_Some in Hb0 as [Hnf Hb0].
    rewrite lookup_delete_ne by done. by apply (inv_blob_content _ _ Hs).
  - apply (inv_file_content _ _ Hs).
  - rewrite (msum_delete _ _ b) by done. rewrite Hrc.
    pose proof (inv_size_sum _ _ Hs). lia.
  - apply (inv_sum_total _ _ Hs).
  - rewrite (msum_delete _ _ b) by done. rewrite indicator_live, Hrc.
    pose proof (inv_sum_actual _ _ Hs). lia.
Qed.

Lemma reachable_inv_size st : reachable st → inv_size st.
Proof.
  induction 1 as [|op st Hst IH]; [apply inv_size_init|].
  pose proof (reachable_inv _ Hst) as Hinv.
  destruct op; simpl;
    auto using inv_size_upload, inv_size_delete_file, inv_size_reclaim.
Qed.

Lemma live_size_le_total st :
  inv_size st →
  (msum (λ b, Z.of_nat (blob_size b)) (filter (λ kv, live kv.2) (blobs st)) ≤
   msum (λ f, Z.of_nat (nominal_size f)) (files st))%Z.
Proof.
  intros Hs. rewrite (inv_size_sum _ _ Hs), msum_filter. apply msum_le.
  intros fp b _. rewrite indicator_live. destruct (reference_count b); nia.
Qed.

(** The two aggregation strategies publish the same snapshot. *)
Lemma snapshot_recompute st : reachable st → snapshot st = recompute st.
Proof.
  intros Hst. pose proof (reachable_inv _ Hst) as Hinv.
  pose proof (reachable_inv_size _ Hst) as Hs.
  unfold snapshot, recompute.
  rewrite (inv_count_files _ Hinv), (inv_count_unique _ Hinv), mcount_filter.
  rewrite (inv_sum_total _ _ Hs), (inv_sum_actual _ _ Hs), <- msum_filter.
  done.
Qed.

(** Between whole transactions, in the snapshot of either aggregation
    strategy, [total_size] is the sum of the nominal sizes of the
    FileEntry records, [actual_size] is the sum of the sizes of the Blobs
    with a positive reference count, and [storage_saved] is their
    difference, which is never negative. *)
Lemma conservation_law st s :
  reachable st → publishes st s →
  (total_size s = msum (λ f, Z.of_nat (nominal_size f)) (files st) ∧
   actual_size s =
     msum (λ b, Z.of_nat (blob_size b)) (filter (λ kv, live kv.2) (blobs st)) ∧
   storage_saved s = total_size s - actual_size s ∧
   0 ≤ storage_saved s)%Z.
Proof.
  intros Hst Hs.
  assert (s = recompute st) as ->.
  { destruct Hs as [-> | ->]; [done|]. by apply snapshot_recompute. }
  pose proof (live_size_le_total _ (reachable_inv_size _ Hst)) as Hle.
  simpl. repeat split; lia.
Qed.

(** *** Sizes while requests are in flight *)

Local Abbreviation linearized_size := (Engine.linearized_size hash).

Lemma reclaim_counters disk fp st : counters (reclaim disk fp st) = counters st.
Proof.
  unfold reclaim. destruct (blobs st !! fp) as [b|]; [|done].
  destruct (reference_count b); [|done]. by destruct disk.
Qed.

Lemma linearized_size_start st0 ops :
  reachable st0 → linearized_size (start st0 ops) st0.
Proof.
  intros Hst. pose proof (reachable_inv_size _ Hst) as Hs.
  split; simpl; try done.
  - intros fp b Hb. destruct (inv_blob_content _ _ Hs fp b Hb) as (c & _ & Hc & Hsz).
    by exists c.
  - apply Forall_fmap, Forall_forall. by intros op _.
Qed.

Lemma linearized_size_step cfg L i :
  linearized cfg L → linearized_size cfg L →
  linearized_size (sched_step cfg i) (run_ops (commit_step cfg i) L).
Proof.
  destruct cfg as [st lk pool]. intros HL HS.
  unfold Engine.sched_step, Engine.commit_step. simpl.
  destruct (pool !! i) as [t|] eqn:Hi; [|done].
  pose proof HL as [Hreach Hfiles Hnext Hcf Hcu Hrc Hpres Hhold Hcre Hhist Hlink].
  pose proof HS as [Htot Hact Hblob Hlsz].
  simpl in *. pose proof (reachable_inv _ Hreach) as HinvL.
  pose proof (reachable_inv_size _ Hreach) as HsL.
  destruct t as [[disk meta s|disk id|disk fp0]|disk meta c|disk meta c|meta c
                 |meta c ref|f|o]; simpl.
  - destruct s as [c|p]; simpl; [destruct (decide (hash c ∈ lk))|];
      split; simpl; try done; by apply Forall_insert.
  - unfold index_delete. destruct (files st !! id) as [f|] eqn:Hf;
      [|rewrite delete_file_unchanged by (right; by rewrite Hfiles);
        split; simpl; try done; by apply Forall_insert].
    destruct disk; simpl;
      [|rewrite delete_file_unchanged by (by left);
        split; simpl; try done; by apply Forall_insert..].
    assert (files L !! id = Some f) as HfL by by rewrite Hfiles.
    destruct (delete_file_shape id f L Hreach HfL)
      as (b & Hb & Hf' & Hn' & Hrc' & Hpres' & Hcnt').
    assert (reachable (delete_file DiskOk id L).1) as Hreach'.
    { exact (reach_step hash (OpDelete DiskOk id) _ Hreach). }
    pose proof (nominal_size_blob_size L id f b HsL HfL Hb) as Hnb.
    split; simpl; try done.
    + rewrite Hcnt'. simpl. lia.
    + rewrite Hcnt'. simpl. rewrite <- Hfiles, <- Hf'.
      pose proof (refcount_mcount _ (fingerprint f) (reachable_inv _ Hreach'))
        as Hm.
      destruct (refcount_of (fingerprint f) (delete_file DiskOk id L).1)
        as [|m] eqn:Hr.
      * rewrite bool_decide_true by lia. lia.
      * rewrite bool_decide_false by lia. lia.
    + by apply Forall_insert.
  - destruct (decide (fp0 ∈ lk)) as [Hin|Hout].
    { rewrite list_insert_id by done. done. }
    assert (∀ L', counters L' = counters L →
              linearized_size
                (mkConfig (reclaim disk fp0 st) lk (<[i:=Finished Reclaimed]> pool))
                L') as Hsame.
    { intros L' HcL. split; simpl; rewrite ?reclaim_counters, ?HcL; try done.
      - intros fp b. unfold reclaim.
        destruct (blobs st !! fp0) as [b0|]; [|apply Hblob].
        destruct (reference_count b0); [|apply Hblob].
        destruct disk; [|apply Hblob..]. simpl.
        intros Hb. apply lookup_delete_Some in Hb as [_ Hb]. by eapply Hblob.
      - by apply Forall_insert. }
    destruct (decide (refcount_of fp0 st = 0)); simpl; apply Hsame; [|done].
    apply reclaim_counters.
  - destruct (blobs st !! hash c) as [b|] eqn:Hb.
    + destruct (Hblob _ _ Hb) as (c' & Hc' & Hsz).
      apply hash_inj in Hc' as ->.
      split; simpl; try done.
      * intros fp b'. destruct (decide (fp = hash c)) as [->|Hne].
        -- rewrite lookup_insert_eq. intros [= <-]. by exists c.
        -- rewrite lookup_insert_ne by done. apply Hblob.
      * by apply Forall_insert.
    + split; simpl; try done. by apply Forall_insert.
  - destruct disk; simpl; split; simpl; try done; by apply Forall_insert.
  - split; simpl; try done.
    + intros fp b'. destruct (decide (fp = hash c)) as [->|Hne].
      * rewrite lookup_insert_eq. intros [= <-]. by exists c.
      * rewrite lookup_insert_ne by done. apply Hblob.
    + by apply Forall_insert.
  - assert (ref_fingerprint ref = hash c) as Href.
    { by apply (Forall_lookup_1 _ _ _ _ Hlink Hi). }
    assert (ref_size ref = String.length c) as Hrsz.
    { by apply (Forall_lookup_1 _ _ _ _ Hlsz Hi). }
    destruct (upload_shape meta c L) as (Hf' & Hn' & Hrc' & Hpres' & Hcnt').
    split; simpl; try done.
    + rewrite Hcnt'. simpl. lia.
    + rewrite Hcnt'. simpl. rewrite Href, Hrsz, <- Hfiles.
      pose proof (refcount_mcount L (hash c) HinvL) as Hm.
      assert (match blobs L !! hash c with
              | Some b => blob_size b
              | None => String.length c
              end = String.length c) as ->.
      { destruct (blobs L !! hash c) as [b|] eqn:Hb; [|done].
        destruct (inv_blob_content _ _ HsL _ _ Hb) as (c' & _ & Hc' & ->).
        by apply hash_inj in Hc' as ->. }
      destruct (refcount_of (hash c) L) as [|m] eqn:Hr.
      * rewrite bool_decide_true by done. rewrite bool_decide_true by lia. lia.
      * rewrite bool_decide_false by lia. rewrite bool_decide_false by lia. lia.
    + by apply Forall_insert.
  - destruct (decide (fingerprint f ∈ lk)) as [Hin|Hout].
    { rewrite list_insert_id by done. done. }
    unfold unlink. destruct (blobs st !! fingerprint f) as [b|] eqn:Hb;
      [|split; simpl; try done; by apply Forall_insert].
    destruct (reference_count b) as [|m];
      [split; simpl; try done; by apply Forall_insert|].
    split; simpl; try done.
    + intros fp b'. destruct (decide (fp = fingerprint f)) as [->|Hne].
      * rewrite lookup_insert_eq. intros [= <-]. simpl. by eapply Hblob.
      * rewrite lookup_insert_ne by done. apply Hblob.
    + by apply Forall_insert.
  - rewrite list_insert_id by done. done.
Qed.

Lemma linearized_size_run sched : ∀ cfg L,
  linearized cfg L → linearized_size cfg L →
  linearized_size (interleave sched cfg) (run_ops (committed sched cfg) L).
Proof.
  induction sched as [|i sched IH]; intros cfg L HL HS; [done|].
  simpl. rewrite run_ops_app. apply IH.
  - by apply linearized_step.
  - by apply linearized_size_step.
Qed.

Lemma linearized_size_interleave st0 ops sched :
  reachable st0 →
  linearized_size (interleave sched (start st0 ops)) (linearization sched st0 ops).
Proof.
  intros Hst. apply linearized_size_run.
  - by apply linearized_start.
  - by apply linearized_size_start.
Qed.

(** When no request holds a reference of its own, the Blobs in use are
    those of the linearization. *)
Lemma settled_live_blobs cfg L :
  linearized cfg L → linearized_size cfg L → settled (pool cfg) →
  filter (λ kv, live kv.2) (blobs (store cfg)) =
  filter (λ kv, live kv.2) (blobs L).
Proof.
  intros HL HS Hset.
  pose proof (reachable_inv_size _ (lz_reachable _ _ _ HL)) as HsL.
  apply map_eq. intros fp. apply option_eq. intros b.
  rewrite !map_lookup_filter_Some. simpl.
  pose proof (settled_refcount cfg L fp HL Hset) as Hrc.
  unfold refcount_of, live in *.
  split; intros [Hb Hl]; rewrite Hb in Hrc.
  - destruct (blobs L !! fp) as [b'|] eqn:Hb'; [|lia].
    destruct (lzs_blob _ _ _ HS fp b Hb) as (c & Hc & Hsz).
    destruct (inv_blob_content _ _ HsL fp b' Hb') as (c' & _ & Hc' & Hsz').
    assert (c = c') as <- by (apply hash_inj; congruence).
    split; [|done]. f_equal. destruct b, b'. simpl in *. congruence.
  - destruct (blobs (store cfg) !! fp) as [b'|] eqn:Hb'; [|lia].
    destruct (lzs_blob _ _ _ HS fp b' Hb') as (c & Hc & Hsz).
    destruct (inv_blob_content _ _ HsL fp b Hb) as (c' & _ & Hc' & Hsz').
    assert (c = c') as <- by (apply hash_inj; congruence).
    split; [|done]. f_equal. destruct b, b'. simpl in *. congruence.
Qed.

Lemma in_use_sizes cfg L :
  linearized cfg L → linearized_size cfg L →
  msum (λ b, Z.of_nat (blob_size b))
       (filter (in_use (pool cfg)) (blobs (store cfg))) =
  msum (λ b, Z.of_nat (blob_size b)) (filter (λ kv, live kv.2) (blobs L)).
Proof.
  intros HL HS.
  pose proof (reachable_inv_size _ (lz_reachable _ _ _ HL)) as HsL.
  rewrite <- !(msum_fmap blob_size (λ n, Z.of_nat n)). f_equal.
  apply map_eq. intros fp. apply option_eq. intros n.
  rewrite !lookup_fmap, !fmap_Some.
  setoid_rewrite map_lookup_filter_Some. unfold Engine.in_use. simpl.
  pose proof (lz_refcount _ _ _ HL fp) as Hrc.
  unfold refcount_of, live in *.
  split; intros (b & [Hb Hl] & ->); rewrite Hb in Hrc.
  - destruct (blobs L !! fp) as [b'|] eqn:Hb'; [|lia].
    destruct (lzs_blob _ _ _ HS fp b Hb) as (c & Hc & Hsz).
    destruct (inv_blob_content _ _ HsL fp b' Hb') as (c' & _ & Hc' & Hsz').
    assert (c = c') as <- by (apply hash_inj; congruence).
    exists b'. split; [split; [done|lia]|congruence].
  - destruct (blobs (store cfg) !! fp) as [b'|] eqn:Hb'; [|lia].
    destruct (lzs_blob _ _ _ HS fp b' Hb') as (c & Hc & Hsz).
    destruct (inv_blob_content _ _ HsL fp b Hb) as (c' & _ & Hc' & Hsz').
    assert (c = c') as <- by (apply hash_inj; congruence).
    exists b'. split; [split; [done|lia]|congruence].
Qed.

(** At every moment of every interleaving, what the Statistics
    Aggregator publishes is the recomputed statistics of the
    linearization. *)
Lemma published_recompute st0 ops sched s :
  reachable st0 →
  publishes_during (interleave sched (start st0 ops)) s →
  s = recompute (linearization sched st0 ops).
Proof.
  intros Hst Hpub.
  pose proof (linearized_interleave st0 ops sched Hst) as HL.
  pose proof (linearized_size_interleave st0 ops sched Hst) as HS.
  destruct Hpub as [->|[->|[Hset ->]]].
  - rewrite <- (snapshot_recompute _ (lz_reachable _ _ _ HL)).
    unfold snapshot.
    rewrite (lz_count_files _ _ _ HL), (lz_count_unique _ _ _ HL),
      (lzs_total _ _ _ HS), (lzs_actual _ _ _ HS). done.
  - unfold Engine.rescan, recompute.
    rewrite (in_use_size _ _ HL), (in_use_sizes _ _ HL HS), (lz_files _ _ _ HL).
    done.
  - unfold recompute.
    rewrite (settled_live_blobs _ _ HL HS Hset), (lz_files _ _ _ HL). done.
Qed.

(** At every moment the counters and the full recomputation agree. *)
Lemma snapshot_rescan st0 ops sched :
  reachable st0 →
  snapshot (store (interleave sched (start st0 ops))) =
  rescan (interleave sched (start st0 ops)).
Proof.
  intros Hst.
  rewrite (published_recompute st0 ops sched (snapshot _) Hst (or_introl eq_refl)).
  symmetry. apply published_recompute; [done|]. right. by left.
Qed.


Lemma sched_step_solo st lk t :
  sched_step (mkConfig st lk [t]) 0 =
  let '(st', lk', t') := act t st lk in mkConfig st' lk' [t'].
Proof. reflexivity. Qed.

Local Ltac solo_step :=
  rewrite sched_step_solo;
  cbn [Engine.act Engine.hasher Engine.stream_bytes Engine.index_create
       Engine.index_delete].

(** A request that runs alone does what the whole transaction does. *)
Lemma solo_refines op st :
  reachable st →
  store (interleave (replicate 5 0) (start st [op])) = step op st ∧
  locks (interleave (replicate 5 0) (start st [op])) = ∅ ∧
  forallb is_finished (pool (interleave (replicate 5 0) (start st [op]))) = true.
Proof.
  intros Hst. pose proof (reachable_inv _ Hst) as Hinv.
  pose proof (reachable_inv_size _ Hst) as Hs.
  unfold Engine.interleave, Engine.start.
  cbn [fold_left replicate fmap list_fmap].
  destruct op as [disk meta s|disk id|disk fp]; cbn [Engine.step].
  - destruct s as [c|p].
    + solo_step. rewrite decide_False by set_solver.
      unfold Engine.upload, hasher, put_or_link. cbn [stream_bytes].
      pose proof (refcount_mcount st (hash c) Hinv) as Hm. unfold refcount_of in Hm.
      destruct (blobs st !! hash c) as [b|] eqn:Hb.
      * solo_step. rewrite Hb. do 3 solo_step. cbn.
        split; [|split; [set_solver|done]].
        unfold set_counters, count_create, count_upload. cbn. f_equal. f_equal.
        -- destruct (reference_count b).
           ++ rewrite !bool_decide_true by (done || lia). done.
           ++ rewrite !bool_decide_false by (done || lia). done.
        -- destruct (reference_count b).
           ++ rewrite !bool_decide_true by (done || lia). done.
           ++ rewrite !bool_decide_false by (done || lia). done.
      * solo_step. rewrite Hb. destruct disk.
        -- do 3 solo_step. cbn.
           split; [|split; [set_solver|done]].
           unfold set_counters, count_create, count_upload. cbn.
           rewrite !bool_decide_true by (done || lia). done.
        -- do 3 solo_step. cbn. split; [done|]. split; [set_solver|done].
        -- do 3 solo_step. cbn. split; [done|]. split; [set_solver|done].
    + do 5 solo_step. done.
  - unfold delete_file. solo_step. unfold index_delete.
    destruct (files st !! id) as [f|] eqn:Hf; [|by do 4 solo_step].
    destruct disk; [|by do 4 solo_step..].
    destruct (reachable_entry_blob st id f Hst Hf) as (b & Hb & Hpos).
    pose proof (nominal_size_blob_size st id f b Hs Hf Hb) as Hnb.
    pose proof (inv_refcount _ Hinv _ _ Hb) as Hrc.
    pose proof (mcount_delete (references (fingerprint f)) id f (files st) Hf)
      as Hmd.
    unfold indicator in Hmd. rewrite decide_True in Hmd by done.
    solo_step. rewrite decide_False by set_solver.
    unfold unlink. cbn. rewrite Hb.
    destruct (reference_count b) as [|m] eqn:Hrcb; [lia|].
    do 3 solo_step. cbn.
    split; [|done].
    unfold set_counters, set_blobs, count_remove, count_delete. cbn.
    f_equal. f_equal.
    + destruct m.
      * rewrite bool_decide_true by lia. done.
      * rewrite bool_decide_false by lia. done.
    + destruct m.
      * rewrite bool_decide_true by lia. by rewrite Hnb.
      * rewrite bool_decide_false by lia. done.
  - solo_step. rewrite decide_False by set_solver. by do 4 solo_step.
Qed.

End CollisionFree.

End WithHash.

(** *** The sample run *)

Lemma plain_hash_inj c1 c2 : plain_hash c1 = plain_hash c2 → c1 = c2.
Proof. intros H. exact H. Defined.

(** The statistics of the example scenario, step by step. *)
Example scenario_hello :
  snapshot one_hello = mkStatistics 1 1 0 5 5 0 ∧
  snapshot two_hellos = mkStatistics 2 1 1 10 5 5 ∧
  snapshot hello_b_left = mkStatistics 1 1 0 5 5 0 ∧
  refcount_of "hello" hello_b_left = 1 ∧
  snapshot no_hello = mkStatistics 0 0 0 0 0 0 ∧
  blobs no_hello !! "hello" = None ∧
  physical no_hello !! "hello" = None.
Proof. vm_compute. repeat split. Qed.

(** Between [unlink] and the Reclaimer a Blob with count 0 is still in
    the store, and [lookup] does not return it. *)
Example lookup_unlinked :
  blobs unlinked_hello !! "hello" = Some (mkBlob 5 0) ∧
  lookup "hello" unlinked_hello = None ∧
  lookup "hello" one_hello = Some (mkBlobMeta 5 1).
Proof. vm_compute. repeat split. Qed.

(** Two uploads of "hello" side by side.  While the first is between
    [put_or_link] and File Index [create], the Blob has a reference and
    no FileEntry: the counters and the full recomputation publish the
    statistics of the empty store, which is the linearization, whereas a
    plain scan of the two stores at that moment would count a Blob
    without a file.  The second upload then
    overtakes the first; its FileEntry is the first to point at the
    Blob. *)
Example in_flight_hello :
  pool first_linked =
    [ULinked meta_a "hello" (mkBlobRef "hello" 5 1); Waiting (upload_hello meta_b)] ∧
  refcount_of "hello" (store first_linked) = 1 ∧
  files (store first_linked) = ∅ ∧
  snapshot (store first_linked) = mkStatistics 0 0 0 0 0 0 ∧
  Engine.rescan plain_hash first_linked = mkStatistics 0 0 0 0 0 0 ∧
  recompute (store first_linked) = mkStatistics 0 1 (-1) 0 5 (-5) ∧
  linearization plain_hash until_linked init two_uploads = init ∧
  ¬ Engine.settled plain_hash (pool first_linked) ∧
  pool second_done =
    [ULinked meta_a "hello" (mkBlobRef "hello" 5 1); Finished (Uploaded 0)] ∧
  refcount_of "hello" (store second_done) = 2 ∧
  snapshot (store second_done) = mkStatistics 1 1 0 5 5 0 ∧
  pool both_done = [Finished (Uploaded 1); Finished (Uploaded 0)] ∧
  snapshot (store both_done) = mkStatistics 2 1 1 10 5 5 ∧
  recompute (store both_done) = mkStatistics 2 1 1 10 5 5 ∧
  history (store both_done) = [PhysWrite "hello"].
Proof.
  split; [by vm_compute|]. split; [by vm_compute|]. split; [by vm_compute|].
  split; [by vm_compute|]. split; [by vm_compute|]. split; [by vm_compute|].
  split; [by vm_compute|]. split.
  { intros H. apply Forall_cons in H as [H _]. vm_compute in H. discriminate H. }
  repeat split; by vm_compute.
Qed.

(** A [put_or_link] that finds a Blob with count 0 revives it, and the
    Reclaimer, which checks the count again, leaves it in place: the
    content is not written a second time. *)
Example revived_hello :
  pool revived =
    [Finished (Uploaded 0); Finished (Unlinked (Reclaim "hello" 5));
     Finished (Uploaded 1); Finished Reclaimed] ∧
  blobs (store revived) !! "hello" = Some (mkBlob 5 1) ∧
  physical (store revived) !! "hello" = Some "hello" ∧
  history (store revived) = [PhysWrite "hello"] ∧
  snapshot (store revived) = mkStatistics 1 1 0 5 5 0.
Proof. repeat split; by vm_compute. Qed.



Lemma refcount_after_uploads_and_deletes_witness :
  Engine.reachable plain_hash init ∧
  blobs init !! plain_hash "hello" = None ∧
  Engine.upload_many plain_hash three_metas "hello" init =
    (three_hellos, [0; 1; 2]) ∧
  NoDup [1] ∧ [1] ⊆ [0; 1; 2] ∧
  length [0; 1; 2] = length three_metas ∧
  (length [1] ≤ length three_metas)%nat ∧
  refcount_of (plain_hash "hello") (delete_many [1] three_hellos) =
    (length three_metas - length [1])%nat ∧
  (physical (delete_many [1] three_hellos) !! plain_hash "hello" = None ↔
     (length three_metas - length [1])%nat = 0%nat) ∧
  (blobs (delete_many [1] three_hellos) !! plain_hash "hello" = None ↔
     (length three_metas - length [1])%nat = 0%nat).
Proof.
  assert (Engine.upload_many plain_hash three_metas "hello" init =
            (three_hellos, [0; 1; 2])) as Hup.
  { vm_compute. reflexivity. }
  assert (NoDup [1]) as Hnd by apply NoDup_singleton.
  assert ([1] ⊆ [0; 1; 2]) as Hsub.
  { apply (bool_decide_unpack _). vm_compute. exact I. }
  split; [apply reach_init|]. split; [reflexivity|].
  split; [exact Hup|]. split; [exact Hnd|]. split; [exact Hsub|].
  exact (refcount_after_uploads_and_deletes plain_hash "hello" three_metas [1]
           init three_hellos [0; 1; 2] (reach_init plain_hash) eq_refl
           Hup Hnd Hsub).
Defined.

(** All three files deleted: the count is 0 and the Blob is gone. *)
Example refcount_all_deleted :
  refcount_of "hello" (delete_many [2; 0; 1] three_hellos) = 0 ∧
  physical (delete_many [2; 0; 1] three_hellos) !! "hello" = None ∧
  refcount_of "hello" (delete_many [2; 0] three_hellos) = 1 ∧
  physical (delete_many [2; 0] three_hellos) !! "hello" = Some "hello".
Proof. vm_compute. repeat split. Qed.



Lemma storage_errors_abort_witness :
  Engine.reachable plain_hash one_hello ∧
  (match Engine.upload plain_hash DiskFull meta_b (Complete "world") one_hello with
   | (st', Ok fid) =>
       files one_hello !! fid = None ∧
       ∃ f b, files st' !! fid = Some f ∧
              hasher plain_hash (Complete "world") = Ok (fingerprint f) ∧
              blobs st' !! fingerprint f = Some b ∧
              reference_count b = S (refcount_of (fingerprint f) one_hello) ∧
              is_Some (physical st' !! fingerprint f) ∧
              files st' = <[fid := f]> (files one_hello) ∧
              (blobs one_hello !! fingerprint f = None → DiskFull = DiskOk)
   | (st', Err e) =>
       st' = one_hello ∧
       (((∃ p, Complete "world" = Truncated p) ∧ e = IOFailure) ∨
        (∃ c0, Complete "world" = Complete c0 ∧
               blobs one_hello !! plain_hash c0 = None ∧
               ((DiskFull = DiskError ∧ e = IOFailure) ∨
                (DiskFull = DiskFull ∧ e = CapacityExceeded))))
   end ∧
   ((∃ p, Complete "world" = Truncated p) ∨
    (∃ c0, Complete "world" = Complete c0 ∧
           blobs one_hello !! plain_hash c0 = None ∧ DiskFull ≠ DiskOk) →
    ∃ e, Engine.upload plain_hash DiskFull meta_b (Complete "world") one_hello =
         (one_hello, Err e)) ∧
   match delete_file DiskFull 0 one_hello with
   | (st', Ok d) =>
       is_Some (files one_hello !! 0) ∧ files st' = delete 0 (files one_hello) ∧
       DiskFull = DiskOk ∧
       ∃ f b, files one_hello !! 0 = Some f ∧
              blobs one_hello !! fingerprint f = Some b ∧
              reference_count b = S (refcount_of (fingerprint f) st') ∧
              blobs st' =
                <[fingerprint f :=
                    mkBlob (blob_size b) (refcount_of (fingerprint f) st')]>
                  (blobs one_hello) ∧
              physical st' = physical one_hello ∧
              d = match refcount_of (fingerprint f) st' with
                  | O => Reclaim (fingerprint f) (blob_size b)
                  | S _ => Retain
                  end
   | (st', Err e) =>
       st' = one_hello ∧
       ((files one_hello !! 0 = None ∧ e = NotFound) ∨
        (is_Some (files one_hello !! 0) ∧ DiskFull ≠ DiskOk ∧ e = IOFailure))
   end ∧
   (is_Some (files one_hello !! 0) → DiskFull ≠ DiskOk →
    delete_file DiskFull 0 one_hello = (one_hello, Err IOFailure)) ∧
   (files one_hello !! 0 = None →
    delete_file DiskFull 0 one_hello = (one_hello, Err NotFound)) ∧
   match delete_endpoint DiskFull DiskOk 0 one_hello with
   | (st', Ok d) =>
       ∃ st1, delete_file DiskFull 0 one_hello = (st1, Ok d) ∧
              st' = match d with
                    | Reclaim fp' _ => reclaim DiskOk fp' st1
                    | Retain => st1
                    end
   | (st', Err e) =>
       st' = one_hello ∧ delete_file DiskFull 0 one_hello = (one_hello, Err e)
   end ∧
   match put_or_link DiskFull "world" "world" 5 one_hello with
   | (st', Ok _) => True
   | (st', Err e) =>
       st' = one_hello ∧ blobs st' !! "world" = None ∧
       refcount_of "world" st' = refcount_of "world" one_hello ∧
       ((DiskFull = DiskError ∧ e = IOFailure) ∨
        (DiskFull = DiskFull ∧ e = CapacityExceeded))
   end ∧
   (blobs one_hello !! "world" = None → DiskFull ≠ DiskOk →
    ∃ e, put_or_link DiskFull "world" "world" 5 one_hello = (one_hello, Err e))).
Proof.
  assert (Engine.reachable plain_hash one_hello) as Hr.
  { unfold one_hello. apply reach_step, reach_init. }
  split; [exact Hr|].
  exact (storage_errors_abort plain_hash DiskFull DiskOk meta_b
           (Complete "world") 0 "world" "world" 5 one_hello Hr).
Defined.

(** The same operations on a failing store, evaluated. *)
Example failing_store :
  Engine.upload plain_hash DiskFull meta_b (Complete "world") one_hello =
    (one_hello, Err CapacityExceeded) ∧
  Engine.upload plain_hash DiskError meta_b (Complete "world") one_hello =
    (one_hello, Err IOFailure) ∧
  Engine.upload plain_hash DiskOk meta_b (Truncated "wor") one_hello =
    (one_hello, Err IOFailure) ∧
  (Engine.upload plain_hash DiskFull meta_b (Complete "hello") one_hello).2 = Ok 1 ∧
  delete_file DiskError 0 one_hello = (one_hello, Err IOFailure) ∧
  delete_file DiskOk 7 one_hello = (one_hello, Err NotFound).
Proof. repeat split; by vm_compute. Qed.

End EngineFacts.

(** ** The filter bar as rendered *)

Module SearchFilterViewFacts.

Import SearchFilter SearchFilterView.

Lemma keys_set_new k v o :
  k ∉ Js.keys o → Js.keys (Js.set k v o) = (Js.keys o ++ [k])%list.
Proof.
  unfold Js.keys. induction o as [|[k' v'] o IH]; simpl; [done|].
  intros Hk. apply not_elem_of_cons in Hk as [Hne Hk].
  rewrite decide_False by done. simpl. f_equal. by apply IH.
Qed.

Lemma set_set_same k v1 v2 o : Js.set k v2 (Js.set k v1 o) = Js.set k v2 o.
Proof.
  induction o as [|[k' v'] o IH]; simpl.
  - by rewrite decide_True.
  - destruct (decide (k' = k)) as [->|Hne]; simpl.
    + by rewrite decide_True.
    + rewrite decide_False by done. by rewrite IH.
Qed.

Lemma set_set_comm k1 k2 v1 v2 o :
  k1 ≠ k2 → k1 ∈ Js.keys o → k2 ∈ Js.keys o →
  Js.set k2 v2 (Js.set k1 v1 o) = Js.set k1 v1 (Js.set k2 v2 o).
Proof.
  intros Hne. unfold Js.keys.
  induction o as [|[k v] o IH]; simpl; intros H1 H2; [inversion H1|].
  destruct (decide (k = k1)) as [->|Hk1]; simpl.
  - rewrite !(decide_False (P := k1 = k2)) by done. simpl.
    by rewrite decide_True.
  - destruct (decide (k = k2)) as [->|Hk2]; simpl.
    + by rewrite decide_False by done.
    + rewrite decide_False by done. f_equal.
      apply elem_of_cons in H1 as [H1|H1]; [congruence|].
      apply elem_of_cons in H2 as [H2|H2]; [congruence|]. by apply IH.
Qed.

Lemma set_keys_NoDup k v o : NoDup (Js.keys o) → NoDup (Js.keys (Js.set k v o)).
Proof.
  intros Hnd. destruct (decide (k ∈ Js.keys o)) as [Hin|Hnotin].
  - by rewrite JsFacts.keys_set.
  - rewrite keys_set_new by done. apply NoDup_app. split; [done|].
    split; [|apply NoDup_singleton].
    intros x Hx Hx'. apply list_elem_of_singleton in Hx'. by subst.
Qed.

Lemma filters_of_lookup fv k :
  NoDup (Js.keys fv) →
  filters_of fv !! k =
  match Js.get k fv with
  | Some v => if Js.truthy v then Some v else None
  | None => None
  end.
Proof.
  intros Hnd. unfold filters_of, Js.entries.
  rewrite SearchFilterFacts.collect_fold_lookup by done.
  rewrite lookup_empty. by destruct (Js.get k fv).
Qed.

Lemma filters_of_set name value fv :
  NoDup (Js.keys fv) →
  filters_of (Js.set name value fv) =
  if Js.truthy value then <[name := value]> (filters_of fv)
  else delete name (filters_of fv).
Proof.
  intros Hnd. apply map_eq. intros k.
  rewrite filters_of_lookup by by apply set_keys_NoDup.
  destruct (decide (name = k)) as [->|Hne].
  - rewrite JsFacts.get_set_eq. destruct (Js.truthy value).
    + by rewrite lookup_insert_eq.
    + by rewrite lookup_delete_eq.
  - rewrite JsFacts.get_set_ne by done.
    destruct (Js.truthy value).
    + rewrite lookup_insert_ne by done. by rewrite filters_of_lookup.
    + rewrite lookup_delete_ne by done. by rewrite filters_of_lookup.
Qed.

Lemma reachable_NoDup st : reachable st → NoDup (Js.keys (filterValues st)).
Proof.
  intros Hst. rewrite (SearchFilterFacts.reachable_keys st Hst).
  apply SearchFilterFacts.field_names_NoDup.
Qed.

Lemma truthy_eqb v : negb (String.eqb v "") = Js.truthy v.
Proof. by destruct v. Qed.

Lemma fold_collect_empty fv : ∀ acc,
  fold_left collect fv acc = ∅ ↔
  acc = ∅ ∧ existsb (λ v, negb (String.eqb v "")) (Js.values fv) = false.
Proof.
  unfold Js.values. induction fv as [|[k v] fv IH]; intros acc; simpl.
  - naive_solver.
  - rewrite IH, truthy_eqb. unfold collect. simpl.
    destruct (Js.truthy v); simpl.
    + split; [|by intros [_ ?]]. intros [H _].
      by apply insert_non_empty in H.
    + done.
Qed.

Lemma offered_rendered st e : offered st e → rendered st e.
Proof.
  destruct e as [name value| | |]; simpl; try done.
  intros [->|[_ Hin]]; unfold field_names.
  - left.
  - right. exact Hin.
Qed.

Lemma handle_calls_length e st :
  length (handle e st).2 = if notifies e then 1 else 0.
Proof. by destruct e. Qed.

(** X1. In a reachable state, [handleInputChange] for one of the six
    inputs stores the value under the name of the input and touches
    nothing else: the named field reads back the new value, every other
    field reads as before, the keys are still the six field names in
    their order, the panel flag is kept, and [onFilterChange] is not
    called. *)
Theorem handleInputChange_reads_back name value st :
  reachable st → name ∈ field_names →
  let st' := (handleInputChange name value st).1 in
  Js.get name (filterValues st') = Some value ∧
  (∀ k, k ∈ field_names → k ≠ name →
        Js.get k (filterValues st') = Js.get k (filterValues st)) ∧
  Js.keys (filterValues st') = Js.keys (filterValues st) ∧
  Js.keys (filterValues st') = field_names ∧
  isExpanded st' = isExpanded st ∧
  (handleInputChange name value st).2 = [].
Proof.
  intros Hst Hname. pose proof (SearchFilterFacts.reachable_keys st Hst) as Hk.
  simpl. split; [apply JsFacts.get_set_eq|].
  split; [intros k _ Hne; by apply JsFacts.get_set_ne|].
  assert (Js.keys (Js.set name value (filterValues st)) = Js.keys (filterValues st))
    as Hkeys by (apply JsFacts.keys_set; by rewrite Hk).
  split; [exact Hkeys|]. split; [by rewrite Hkeys|done].
Qed.

Lemma handleInputChange_reads_back_witness :
  reachable sample_state ∧ "fileType" ∈ field_names ∧
  let st' := (handleInputChange "fileType" "image/png" sample_state).1 in
  Js.get "fileType" (filterValues st') = Some "image/png" ∧
  (∀ k, k ∈ field_names → k ≠ "fileType" →
        Js.get k (filterValues st') = Js.get k (filterValues sample_state)) ∧
  Js.keys (filterValues st') = Js.keys (filterValues sample_state) ∧
  Js.keys (filterValues st') = field_names ∧
  isExpanded st' = isExpanded sample_state ∧
  (handleInputChange "fileType" "image/png" sample_state).2 = [].
Proof.
  assert (reachable sample_state) as Hr.
  { unfold sample_state.
    apply reach_step; [apply reach_step; [apply reach_initial|]|];
      unfold rendered; apply (bool_decide_unpack _); vm_compute; exact I. }
  assert ("fileType" ∈ field_names) as Hn.
  { apply (bool_decide_unpack _). vm_compute. exact I. }
  split; [exact Hr|]. split; [exact Hn|].
  exact (handleInputChange_reads_back "fileType" "image/png" sample_state Hr Hn).
Defined.

(** X2. In a reachable state, editing one of the six inputs changes the
    record that [applyFilters] sends in that one entry only: a non-empty
    value is put under the input's name, an empty value removes the
    name. *)
Theorem edit_changes_one_entry name value st :
  reachable st → name ∈ field_names →
  filters_of (filterValues (handleInputChange name value st).1) =
  if Js.truthy value
  then <[name := value]> (filters_of (filterValues st))
  else delete name (filters_of (filterValues st)).
Proof.
  intros Hst _. simpl. apply filters_of_set. by apply reachable_NoDup.
Qed.

Lemma edit_changes_one_entry_witness :
  reachable sample_state ∧ "search" ∈ field_names ∧
  filters_of (filterValues (handleInputChange "search" "" sample_state).1) =
  if Js.truthy ""
  then <["search" := ""]> (filters_of (filterValues sample_state))
  else delete "search" (filters_of (filterValues sample_state)).
Proof.
  assert (reachable sample_state) as Hr.
  { unfold sample_state.
    apply reach_step; [apply reach_step; [apply reach_initial|]|];
      unfold rendered; apply (bool_decide_unpack _); vm_compute; exact I. }
  assert ("search" ∈ field_names) as Hn.
  { apply (bool_decide_unpack _). vm_compute. exact I. }
  split; [exact Hr|]. split; [exact Hn|].
  exact (edit_changes_one_entry "search" "" sample_state Hr Hn).
Defined.

(** X3. In a reachable state, edits of two different fields commute: the
    state is the same whichever input is changed first.  Two edits of the
    same field leave the state the second edit alone would leave. *)
Theorem edits_commute n1 v1 n2 v2 st :
  reachable st → n1 ∈ field_names → n2 ∈ field_names → n1 ≠ n2 →
  (handleInputChange n2 v2 (handleInputChange n1 v1 st).1).1 =
  (handleInputChange n1 v1 (handleInputChange n2 v2 st).1).1 ∧
  (handleInputChange n1 v2 (handleInputChange n1 v1 st).1).1 =
  (handleInputChange n1 v2 st).1.
Proof.
  intros Hst H1 H2 Hne. pose proof (SearchFilterFacts.reachable_keys st Hst) as Hk.
  unfold handleInputChange. simpl. split; f_equal.
  - apply set_set_comm; [done|by rewrite Hk..].
  - apply set_set_same.
Qed.

Lemma edits_commute_witness :
  reachable initial ∧ "search" ∈ field_names ∧ "sizeMin" ∈ field_names ∧
  "search" ≠ "sizeMin" ∧
  (handleInputChange "sizeMin" "10" (handleInputChange "search" "a" initial).1).1 =
  (handleInputChange "search" "a" (handleInputChange "sizeMin" "10" initial).1).1 ∧
  (handleInputChange "search" "10" (handleInputChange "search" "a" initial).1).1 =
  (handleInputChange "search" "10" initial).1.
Proof.
  assert ("search" ∈ field_names) as H1.
  { apply (bool_decide_unpack _). vm_compute. exact I. }
  assert ("sizeMin" ∈ field_names) as H2.
  { apply (bool_decide_unpack _). vm_compute. exact I. }
  assert ("search" ≠ "sizeMin") as Hne by discriminate.
  split; [apply reach_initial|]. split; [exact H1|]. split; [exact H2|].
  split; [exact Hne|].
  exact (edits_commute "search" "a" "sizeMin" "10" initial reach_initial H1 H2 Hne).
Defined.

(** X4. In a reachable state, the clear button is rendered exactly when
    the record that [applyFilters] would send is not empty, that is,
    exactly when one of the six fields holds a non-empty value. *)
Theorem clear_visible_iff_record_nonempty st :
  reachable st →
  (clear_visible st = true ↔ filters_of (filterValues st) ≠ ∅) ∧
  (clear_visible st = true ↔
   ∃ k v, k ∈ field_names ∧ (k, v) ∈ filterValues st ∧ v ≠ "").
Proof.
  intros Hst. pose proof (SearchFilterFacts.reachable_keys st Hst) as Hkeys.
  split.
  - unfold filters_of, Js.entries, clear_visible.
    pose proof (fold_collect_empty (filterValues st) ∅) as H.
    destruct (existsb _ _); split; try done.
    + intros _ Hempty. apply H in Hempty as [_ ?]. done.
    + intros Hne. exfalso. apply Hne. by apply H.
  - unfold clear_visible, Js.values. rewrite existsb_exists. split.
    + intros (v & Hin & Hv). apply list_elem_of_In, list_elem_of_fmap in Hin
        as ([k v'] & -> & Hin).
      exists k, v'. split; [|split; [done|]].
      * rewrite <- Hkeys. unfold Js.keys. apply list_elem_of_fmap.
        by exists (k, v').
      * simpl in Hv. intros ->. done.
    + intros (k & v & _ & Hin & Hv). exists v. split.
      * apply list_elem_of_In, list_elem_of_fmap. by exists (k, v).
      * rewrite truthy_eqb. by apply JsFacts.truthy_spec.
Qed.

Lemma clear_visible_iff_record_nonempty_witness :
  reachable sample_state ∧
  (clear_visible sample_state = true ↔
   filters_of (filterValues sample_state) ≠ ∅) ∧
  (clear_visible sample_state = true ↔
   ∃ k v, k ∈ field_names ∧ (k, v) ∈ filterValues sample_state ∧ v ≠ "").
Proof.
  assert (reachable sample_state) as Hr.
  { unfold sample_state.
    apply reach_step; [apply reach_step; [apply reach_initial|]|];
      unfold rendered; apply (bool_decide_unpack _); vm_compute; exact I. }
  split; [exact Hr|].
  exact (clear_visible_iff_record_nonempty sample_state Hr).
Defined.

Lemma clearFilters_then st :
  let st' := (clearFilters st).1 in
  clear_visible st' = false ∧
  ¬ offered st' Clear ∧
  applyFilters st' = (st', [∅]) ∧
  (clearFilters st').1 = st'.
Proof. simpl. repeat split; done. Qed.

(** X5. In a reachable state, [clearFilters] does what emptying all six
    inputs by hand and pressing apply does: the field values end up the
    same, and [onFilterChange] receives the same single empty record. *)
Theorem clear_equals_manual_reset st :
  reachable st →
  filterValues (run empty_all st).1 = filterValues (clearFilters st).1 ∧
  isExpanded (run empty_all st).1 = isExpanded (clearFilters st).1 ∧
  (run (empty_all ++ [Apply]) st).2 = (clearFilters st).2.
Proof.
  intros Hst. pose proof (SearchFilterFacts.reachable_keys st Hst) as Hk.
  destruct st as [ex fv]. unfold Js.keys, field_names in Hk. simpl in Hk.
  do 6 (destruct fv as [|[? ?] fv]; [discriminate Hk|]).
  destruct fv as [|[? ?] fv]; [|discriminate Hk].
  injection Hk as -> -> -> -> -> ->. by vm_compute.
Qed.

Lemma clear_equals_manual_reset_witness :
  reachable sample_state ∧
  filterValues (run empty_all sample_state).1 =
    filterValues (clearFilters sample_state).1 ∧
  isExpanded (run empty_all sample_state).1 =
    isExpanded (clearFilters sample_state).1 ∧
  (run (empty_all ++ [Apply]) sample_state).2 = (clearFilters sample_state).2.
Proof.
  assert (reachable sample_state) as Hr.
  { unfold sample_state.
    apply reach_step; [apply reach_step; [apply reach_initial|]|];
      unfold rendered; apply (bool_decide_unpack _); vm_compute; exact I. }
  split; [exact Hr|].
  exact (clear_equals_manual_reset sample_state Hr).
Defined.

(** X6. In a session, [onFilterChange] is called once for every apply and
    every clear, and never by an edit of an input or by the toggle. *)
Theorem session_call_count es : ∀ st,
  length (run es st).2 = length (filter (λ e, notifies e = true) es).
Proof.
  induction es as [|e es IH]; intros st; simpl; [done|].
  pose proof (handle_calls_length e st) as He.
  destruct (handle e st) as [st1 calls1] eqn:Hh. simpl in He.
  specialize (IH st1). destruct (run es st1) as [st2 calls2]. simpl in *.
  rewrite length_app, He, IH, filter_cons.
  destruct (notifies e); case_decide; simpl; (done || congruence).
Qed.

Lemma run_same_filterValues es : ∀ st st',
  filterValues st = filterValues st' →
  filterValues (run es st).1 = filterValues (run es st').1 ∧
  (run es st).2 = (run es st').2.
Proof.
  induction es as [|e es IH]; intros st st' Heq; simpl; [done|].
  assert (filterValues (handle e st).1 = filterValues (handle e st').1 ∧
          (handle e st).2 = (handle e st').2) as [H1 H2].
  { destruct e; simpl; by rewrite ?Heq. }
  destruct (handle e st) as [st1 c1], (handle e st') as [st1' c1'].
  simpl in *. specialize (IH st1 st1' H1).
  destruct (run es st1) as [st2 c2], (run es st1') as [st2' c2'].
  simpl in *. destruct IH as [-> ->]. by rewrite H2.
Qed.

(** X7. The filter toggle has no influence on the filters: a session
    ends with the same field values and has made the same calls of
    [onFilterChange] as the session without its toggle events, and the
    panel ends expanded or collapsed by the parity of the toggles. *)
Theorem toggle_noninterference es : ∀ st,
  filterValues (run es st).1 =
    filterValues (run (filter (λ e, is_toggle e = false) es) st).1 ∧
  (run es st).2 = (run (filter (λ e, is_toggle e = false) es) st).2 ∧
  isExpanded (run es st).1 =
    xorb (isExpanded st) (Nat.odd (length (filter (λ e, is_toggle e = true) es))).
Proof.
  induction es as [|e es IH]; intros st; simpl.
  - by rewrite xorb_false_r.
  - rewrite !filter_cons. destruct e as [name value| | |]; simpl.
    + destruct (IH (handleInputChange name value st).1) as (H1 & H2 & H3).
      destruct (run es _) as [st2 c2], (run (filter _ es) _) as [st2' c2'].
      simpl in *. by rewrite H2.
    + destruct (IH st) as (H1 & H2 & H3).
      destruct (run es st) as [st2 c2], (run (filter _ es) st) as [st2' c2'].
      simpl in *. by rewrite H2.
    + destruct (IH (clearFilters st).1) as (H1 & H2 & H3).
      destruct (run es _) as [st2 c2], (run (filter _ es) _) as [st2' c2'].
      simpl in *. by rewrite H2.
    + destruct (IH (toggleExpanded st).1) as (H1 & H2 & H3).
      destruct (run_same_filterValues
                  (filter (λ e, is_toggle e = false) es)
                  (toggleExpanded st).1 st eq_refl) as [H4 H5].
      destruct (run es _) as [st2 c2].
      simpl in *. rewrite H1, H2, H3, H4, H5. split; [done|]. split; [done|].
      rewrite Nat.odd_succ, <- Nat.negb_odd.
      destruct (isExpanded st), (Nat.odd _); done.
Qed.

(** X8. From a reachable state, a session of offered events ends in a
    reachable state, and every record it has passed to [onFilterChange]
    holds only keys among the six field names and no empty value. *)
Theorem session_records_wellformed es : ∀ st,
  reachable st → offered_all es st →
  reachable (run es st).1 ∧
  ∀ r, r ∈ (run es st).2 →
       ∀ k v, r !! k = Some v → k ∈ field_names ∧ v ≠ "".
Proof.
  induction es as [|e es IH]; intros st Hst Hall; simpl.
  - split; [done|]. intros r Hr. inversion Hr.
  - destruct Hall as [Hoff Hall].
    pose proof (reach_step st e Hst (offered_rendered st e Hoff)) as Hst1.
    assert (∀ r, r ∈ (handle e st).2 →
                 ∀ k v, r !! k = Some v → k ∈ field_names ∧ v ≠ "") as Hcalls.
    { destruct e as [name value| | |]; simpl; intros r Hr;
        try (by inversion Hr).
      - apply list_elem_of_singleton in Hr as ->. intros k v.
        rewrite filters_of_lookup by by apply reachable_NoDup.
        destruct (Js.get k (filterValues st)) as [w|] eqn:Hget; [|done].
        destruct (Js.truthy w) eqn:Hw; [|done]. intros [= <-].
        split; [|by apply JsFacts.truthy_spec].
        rewrite <- (SearchFilterFacts.reachable_keys st Hst).
        apply JsFacts.get_Some_elem in Hget. unfold Js.keys.
        apply list_elem_of_fmap. by exists (k, w).
      - apply list_elem_of_singleton in Hr as ->. intros k v.
        by rewrite lookup_empty. }
    destruct (handle e st) as [st1 c1]. simpl in *.
    destruct (IH st1 Hst1 Hall) as [Hr2 Hc2].
    destruct (run es st1) as [st2 c2]. simpl in *.
    split; [done|]. intros r Hr.
    apply elem_of_app in Hr as [Hr|Hr]; [by apply Hcalls|by apply Hc2].
Qed.

Lemma session_records_wellformed_witness :
  reachable initial ∧ offered_all sample_session initial ∧
  reachable (run sample_session initial).1 ∧
  ∀ r, r ∈ (run sample_session initial).2 →
       ∀ k v, r !! k = Some v → k ∈ field_names ∧ v ≠ "".
Proof.
  assert (offered_all sample_session initial) as Hall.
  { simpl. repeat split; try (left; reflexivity).
    right. split; [reflexivity|]. apply (bool_decide_unpack _).
    vm_compute. exact I. }
  split; [apply reach_initial|]. split; [exact Hall|].
  exact (session_records_wellformed sample_session initial reach_initial Hall).
Defined.

(** The calls of the sample session, evaluated. *)
Example sample_session_calls :
  (run sample_session initial).2 =
  [<["search" := "report"]> (<["sizeMin" := "10"]> ∅);
   <["sizeMin" := "10"]> ∅;
   ∅].
Proof. vm_compute. reflexivity. Qed.

(** X9. While the panel stays collapsed and nothing is cleared, only the
    search box can be edited: a session of offered events without toggle
    and clear, started with the panel collapsed, leaves every field other
    than [search] with the value it had. *)
Theorem collapsed_keeps_advanced es : ∀ st,
  isExpanded st = false → offered_all es st →
  Forall (λ e, e ≠ Toggle ∧ e ≠ Clear) es →
  isExpanded (run es st).1 = false ∧
  ∀ k, k ≠ "search" →
       Js.get k (filterValues (run es st).1) = Js.get k (filterValues st).
Proof.
  induction es as [|e es IH]; intros st Hcol Hall Hno; simpl; [done|].
  destruct Hall as [Hoff Hall]. apply Forall_cons in Hno as [[Hnt Hnc] Hno].
  assert (isExpanded (handle e st).1 = false ∧
          ∀ k, k ≠ "search" →
               Js.get k (filterValues (handle e st).1) =
               Js.get k (filterValues st)) as [Hcol1 Hget1].
  { destruct e as [name value| | |]; simpl in *; try done.
    destruct Hoff as [->|[Hexp _]]; [|congruence].
    split; [done|]. intros k Hk. by apply JsFacts.get_set_ne. }
  destruct (handle e st) as [st1 c1]. simpl in *.
  destruct (IH st1 Hcol1 Hall Hno) as [Hcol2 Hget2].
  destruct (run es st1) as [st2 c2]. simpl in *.
  split; [done|]. intros k Hk. by rewrite Hget2, Hget1.
Qed.

Lemma collapsed_keeps_advanced_witness :
  isExpanded sample_state = false ∧
  offered_all [Input "search" "x"; Apply; Input "search" ""] sample_state ∧
  Forall (λ e, e ≠ Toggle ∧ e ≠ Clear)
         [Input "search" "x"; Apply; Input "search" ""] ∧
  isExpanded (run [Input "search" "x"; Apply; Input "search" ""] sample_state).1
    = false ∧
  ∀ k, k ≠ "search" →
       Js.get k (filterValues
                   (run [Input "search" "x"; Apply; Input "search" ""]
                        sample_state).1) =
       Js.get k (filterValues sample_state).
Proof.
  assert (offered_all [Input "search" "x"; Apply; Input "search" ""] sample_state)
    as Hall.
  { simpl. repeat split; left; reflexivity. }
  assert (Forall (λ e, e ≠ Toggle ∧ e ≠ Clear)
                 [Input "search" "x"; Apply; Input "search" ""]) as Hno.
  { repeat (apply Forall_cons; split; [split; discriminate|]). apply Forall_nil_2. }
  split; [reflexivity|]. split; [exact Hall|]. split; [exact Hno|].
  exact (collapsed_keeps_advanced [Input "search" "x"; Apply; Input "search" ""]
           sample_state eq_refl Hall Hno).
Defined.

End SearchFilterViewFacts.

(** ** The statistics widget as rendered *)

Module StorageStatsViewFacts.

Import StorageStats StorageStatsView.

Local Open Scope Z_scope.

(** X10. The widget shows the placeholder exactly while the query is
    loading, whatever else the query holds; otherwise it renders nothing
    when there is an error or no data, and the panel exactly when the
    data is there without an error.  No error text is ever shown. *)
Theorem render_branches log_index toLocaleString q :
  (render log_index toLocaleString q = Skeleton ↔ isLoading q = true) ∧
  (render log_index toLocaleString q = Nothing ↔
     isLoading q = false ∧ (is_Some (error q) ∨ data q = None)) ∧
  ((∃ cells footer, render log_index toLocaleString q = Panel cells footer) ↔
     isLoading q = false ∧ error q = None ∧ is_Some (data q)).
Proof.
  unfold render, is_Some.
  destruct q as [[stats|] [|] [err|]]; simpl;
    (split; [|split]); naive_solver.
Qed.

(** The panel shows four of the counters and the time stamp: two
    snapshots that differ only in [duplicate_files] and [actual_size] are
    rendered alike. *)
Lemma render_ignores_duplicates_and_actual log_index toLocaleString
    tf uf df df' ts az az' ss lu loading err :
  render log_index toLocaleString
    (mkQuery (Some (mkStats tf uf df ts az ss lu)) loading err) =
  render log_index toLocaleString
    (mkQuery (Some (mkStats tf uf df' ts az' ss lu)) loading err).
Proof. reflexivity. Qed.

(** X11. For a whole byte count from 1 to below [2^53] whose computed
    index is the exact one, the number [formatBytes] prints lies between
    1 and 1024, both included, in hundredths; it is followed by a blank
    and the entry of [sizes] at the index. *)
Theorem formatBytes_number_range log_index bytes :
  0 < bytes < 2 ^ 53 → log_index bytes = exact_index bytes →
  100 ≤ toFixed2 bytes (k ^ log_index bytes) ≤ 102400 ∧
  formatBytes log_index bytes =
    (show_hundredths (toFixed2 bytes (k ^ log_index bytes)) ++ " " ++
     unit_name (log_index bytes))%string.
Proof.
  intros [Hpos _] Hidx. rewrite Hidx.
  destruct (StorageStatsFacts.exact_index_spec bytes Hpos) as (Hi & Hlo & Hhi).
  split.
  - unfold toFixed2. rewrite Z.add_1_r, Z.pow_succ_r in Hhi by done.
    set (d := k ^ exact_index bytes) in *.
    assert (0 < d) by (apply Z.pow_pos_nonneg; [done|lia]).
    unfold k in Hhi. split.
    + apply Z.div_le_lower_bound; lia.
    + apply Z.lt_succ_r. apply Z.div_lt_upper_bound; lia.
  - unfold formatBytes. rewrite Hidx.
    destruct (Z.eqb_spec bytes 0) as [->|_]; [lia|done].
Qed.

Lemma formatBytes_number_range_witness :
  0 < 1048575 < 2 ^ 53 ∧ exact_index 1048575 = exact_index 1048575 ∧
  100 ≤ toFixed2 1048575 (k ^ exact_index 1048575) ≤ 102400 ∧
  formatBytes exact_index 1048575 =
    (show_hundredths (toFixed2 1048575 (k ^ exact_index 1048575)) ++ " " ++
     unit_name (exact_index 1048575))%string.
Proof.
  assert (0 < 1048575 < 2 ^ 53) as Hb by (split; reflexivity).
  split; [exact Hb|]. split; [reflexivity|].
  exact (formatBytes_number_range exact_index 1048575 Hb eq_refl).
Defined.

(** X12. For a whole byte count from [1024^5] to below [2^53] the exact
    index is at least 5, and whenever the computed index is at least the
    exact one, [formatBytes] reads past the five entries of [sizes]: the
    text it returns ends in the word "undefined" where the unit should
    be. *)
Theorem formatBytes_unit_undefined log_index bytes :
  1024 ^ 5 ≤ bytes < 2 ^ 53 → exact_index bytes ≤ log_index bytes →
  5 ≤ exact_index bytes ∧
  formatBytes log_index bytes =
    (show_hundredths (toFixed2 bytes (k ^ log_index bytes)) ++ " undefined")%string.
Proof.
  intros [Hlo _] Hidx.
  assert (5 ≤ exact_index bytes) as H5.
  { unfold exact_index. apply Z.div_le_lower_bound; [lia|].
    apply Z.log2_le_pow2; [lia|]. exact Hlo. }
  split; [exact H5|]. unfold formatBytes.
  destruct (Z.eqb_spec bytes 0) as [->|_]; [lia|].
  unfold unit_name. destruct (Z.ltb_spec (log_index bytes) 0) as [?|_]; [lia|].
  rewrite (lookup_ge_None_2 sizes) by (simpl; lia). done.
Qed.

Lemma formatBytes_unit_undefined_witness :
  1024 ^ 5 ≤ 1024 ^ 5 < 2 ^ 53 ∧ exact_index (1024 ^ 5) ≤ exact_index (1024 ^ 5) ∧
  5 ≤ exact_index (1024 ^ 5) ∧
  formatBytes exact_index (1024 ^ 5) =
    (show_hundredths (toFixed2 (1024 ^ 5) (k ^ exact_index (1024 ^ 5))) ++
     " undefined")%string.
Proof.
  assert (1024 ^ 5 ≤ 1024 ^ 5 < 2 ^ 53) as Hb.
  { split; [apply Z.le_refl|reflexivity]. }
  split; [exact Hb|]. split; [apply Z.le_refl|].
  exact (formatBytes_unit_undefined exact_index (1024 ^ 5) Hb (Z.le_refl _)).
Defined.

(** One petabyte, evaluated. *)
Example formatBytes_petabyte :
  formatBytes exact_index (1024 ^ 5) = "1 undefined"%string.
Proof. reflexivity. Qed.

End StorageStatsViewFacts.
